(** * miniDraw: the canvas state engine

    A shallow embedding of [src/engine/include/engine.hpp] and
    [src/engine/src/engine.cpp]: the [Engine] class that owns the rectangles,
    the freehand strokes, the index of active strokes and the cursor
    presences, with its four bound methods [resize], [execute],
    [pointerEvent] and [tick].

    Conventions of the embedding.
    - [int] is a [Z]; the one place where the code computes on an [int]
      ([std::abs] followed by [%] in [colorForPointer]) is written out with
      two's complement wrap-around and C++'s truncating remainder.
    - [std::size_t] positions and sizes are [nat] (a vector never holds
      [SIZE_MAX] elements, so [index + 1] does not wrap).
    - [float] is a parameter: the engine stores and copies coordinates and
      never computes on them.  The concrete examples instantiate it with
      Rocq's primitive floats.
    - [std::vector] is a [list] with [push_back] at the end;
      [std::unordered_map] is a [gmap], whose iteration order
      ([map_to_list]) stands for the unspecified order of the C++ container.
    - A method that mutates the engine takes the engine and returns the new
      one.  An array access out of bounds has no defined result: a function
      that may perform one returns an [option], [None] being that case.
    - [emscripten::val] is a small tree of JavaScript values; [val::set] on an
      object keeps the insertion order of the keys, and on an array it
      behaves as a JavaScript array does (writing at [length] extends it).
    - The fields of a struct carry a prefix ([r_] for [Rectangle], [p_] for
      [Presence], [pt_] for [StrokePoint], [s_] for [Stroke], [c_] for a
      command object, [ev_] for an event object): projections share one
      name space, and [id], [x], [y], [color] occur in several structs. *)

From Stdlib Require Import ZArith Lia PrimFloat.
From stdpp Require Import base option list strings gmap fin_maps pretty.

Set Default Proof Using "Type".

(** ** Machine integers *)

Module Int32.
Definition INT_MIN : Z := -2147483648.
Definition INT_MAX : Z := 2147483647.

Definition in_range (z : Z) : Prop := (INT_MIN ≤ z ≤ INT_MAX)%Z.

(** The value of a mathematical integer once stored in 32 bits. *)
Definition wrap (z : Z) : Z := ((z + 2 ^ 31) `mod` 2 ^ 32 - 2 ^ 31)%Z.

(** [std::abs(int)]: the negation wraps, so [abs INT_MIN = INT_MIN]. *)
Definition abs (z : Z) : Z := if (z <? 0)%Z then wrap (- z) else z.

(** The [%] of C++ truncates towards zero: the sign is the dividend's. *)
Definition rem (a b : Z) : Z := Z.rem a b.
End Int32.

(** ** Helpers of the anonymous namespace *)

(** [stream << "rect-" << index + 1]: the decimal digits of [index + 1]. *)
Definition makeRectangleId (index : nat) : string :=
  "rect-" +:+ pretty (index + 1).

Definition makeRectangleName (index : nat) : string :=
  "Rectangle " +:+ pretty (index + 1).

Definition makeStrokeName (index : nat) : string :=
  "Trace " +:+ pretty (index + 1).

Definition palette : list string :=
  ["#22d3ee"; "#f97316"; "#a855f7"; "#facc15"; "#34d399"; "#ef4444"].

(** [palette[i]] for an [int] [i]: the subscript is converted to [size_t], so
    a negative one is far past the end. *)
Definition array_at {A} (a : list A) (i : Z) : option A :=
  if (i <? 0)%Z then None else a !! Z.to_nat i.

(** [std::abs(pointer_id) % static_cast<int>(palette.size())] *)
Definition normalized (pointer_id : Z) : Z :=
  Int32.rem (Int32.abs pointer_id) (Z.of_nat (length palette)).

Definition colorForPointer (pointer_id : Z) : option string :=
  array_at palette (normalized pointer_id).

(** [v.push_back(x)] *)
Definition push_back {A} (v : list A) (x : A) : list A := v ++ [x].

Section Engine.
(** The type of [float] values. *)
Context {float : Type}.

(** ** The structs of engine.hpp *)

Record Rectangle := {
  r_id : string;
  r_name : string;
  r_x : float;
  r_y : float;
  r_width : float;
  r_height : float;
  r_color : string
}.

Record Presence := {
  p_id : string;
  p_color : string;
  p_x : float;
  p_y : float
}.

Record StrokePoint := {
  pt_x : float;
  pt_y : float
}.

Record Stroke := {
  s_id : string;
  s_name : string;
  s_color : string;
  s_size : float;
  s_points : list StrokePoint
}.

Record Engine := {
  width_ : Z;
  height_ : Z;
  rectangles_ : list Rectangle;
  strokes_ : list Stroke;
  strokeIndex_ : gmap string nat;
  presences_ : gmap Z Presence
}.

(** ** The values that cross the binding *)

(** A command object, read field by field with [command["..."]]; the
    numeric fields are the values after [static_cast<float>]. *)
Record Command := {
  c_type : string;
  c_id : string;
  c_x : float;
  c_y : float;
  c_width : float;
  c_height : float;
  c_size : float;
  c_color : string
}.

Record Event := {
  ev_type : string;
  ev_pointerId : Z;
  ev_x : float;
  ev_y : float
}.

(** [emscripten::val], as far as [tick] builds it. *)
#[warnings="-register-all"]
Inductive val : Type :=
| Undefined
| Str (s : string)
| Num (f : float)
| Arr (items : list val)
| Obj (props : list (string * val)).

Fixpoint props_set (props : list (string * val)) (key : string) (v : val)
  : list (string * val) :=
  match props with
  | [] => [(key, v)]
  | (k, w) :: rest =>
      if String.eqb k key then (k, v) :: rest
      else (k, w) :: props_set rest key v
  end.

Definition items_set (items : list val) (index : nat) (v : val) : list val :=
  if index <? length items then <[index := v]> items
  else items ++ replicate (index - length items) Undefined ++ [v].

(** [o.set(key, v)] with a string key *)
Definition set_prop (o : val) (key : string) (v : val) : val :=
  match o with
  | Obj props => Obj (props_set props key v)
  | _ => o
  end.

(** [a.set(index, v)] with a numeric key *)
Definition set_index (a : val) (index : nat) (v : val) : val :=
  match a with
  | Arr items => Arr (items_set items index v)
  | _ => a
  end.

(** ** Engine *)

Definition Engine_new : Engine := {|
  width_ := 0;
  height_ := 0;
  rectangles_ := [];
  strokes_ := [];
  strokeIndex_ := ∅;
  presences_ := ∅
|}.

Definition with_width (e : Engine) (w : Z) : Engine :=
  {| width_ := w; height_ := height_ e; rectangles_ := rectangles_ e;
     strokes_ := strokes_ e; strokeIndex_ := strokeIndex_ e;
     presences_ := presences_ e |}.

Definition with_height (e : Engine) (h : Z) : Engine :=
  {| width_ := width_ e; height_ := h; rectangles_ := rectangles_ e;
     strokes_ := strokes_ e; strokeIndex_ := strokeIndex_ e;
     presences_ := presences_ e |}.

Definition with_rectangles (e : Engine) (rs : list Rectangle) : Engine :=
  {| width_ := width_ e; height_ := height_ e; rectangles_ := rs;
     strokes_ := strokes_ e; strokeIndex_ := strokeIndex_ e;
     presences_ := presences_ e |}.

Definition with_strokes (e : Engine) (ss : list Stroke) : Engine :=
  {| width_ := width_ e; height_ := height_ e; rectangles_ := rectangles_ e;
     strokes_ := ss; strokeIndex_ := strokeIndex_ e;
     presences_ := presences_ e |}.

Definition with_strokeIndex (e : Engine) (ix : gmap string nat) : Engine :=
  {| width_ := width_ e; height_ := height_ e; rectangles_ := rectangles_ e;
     strokes_ := strokes_ e; strokeIndex_ := ix;
     presences_ := presences_ e |}.

Definition with_presences (e : Engine) (ps : gmap Z Presence) : Engine :=
  {| width_ := width_ e; height_ := height_ e; rectangles_ := rectangles_ e;
     strokes_ := strokes_ e; strokeIndex_ := strokeIndex_ e;
     presences_ := ps |}.

Definition resize (e : Engine) (width height : Z) : Engine :=
  let e := with_width e width in
  let e := with_height e height in
  let e := if (width_ e <? 0)%Z then with_width e 0 else e in
  let e := if (height_ e <? 0)%Z then with_height e 0 else e in
  e.

Definition makeRectangle (e : Engine) (x y width height : float)
    (color : string) : Rectangle :=
  let index := length (rectangles_ e) in
  {| r_id := makeRectangleId index;
     r_name := makeRectangleName index;
     r_x := x; r_y := y; r_width := width; r_height := height;
     r_color := color |}.

Definition makeStroke (id name : string) (x y size : float)
    (color : string) : Stroke :=
  {| s_id := id;
     s_name := name;
     s_color := color;
     s_size := size;
     s_points := push_back [] {| pt_x := x; pt_y := y |} |}.

(** [findStroke] returns a pointer into [strokes_]: here the position it
    points at, [None] for [nullptr]. *)
Definition findStroke (e : Engine) (id : string) : option nat :=
  match strokeIndex_ e !! id with
  | None => None
  | Some index =>
      if length (strokes_ e) <=? index then None else Some index
  end.

(** [stroke->points.push_back(pt)] *)
Definition add_point (pt : StrokePoint) (s : Stroke) : Stroke :=
  {| s_id := s_id s; s_name := s_name s; s_color := s_color s;
     s_size := s_size s; s_points := push_back (s_points s) pt |}.

Definition execute (e : Engine) (command : Command) : Engine :=
  let type := c_type command in
  if String.eqb type "createRectangle" then
    let x := c_x command in
    let y := c_y command in
    let width := c_width command in
    let height := c_height command in
    let color := c_color command in
    with_rectangles e
      (push_back (rectangles_ e) (makeRectangle e x y width height color))
  else if String.eqb type "startStroke" then
    let id := c_id command in
    let x := c_x command in
    let y := c_y command in
    let size := c_size command in
    let color := c_color command in
    let name := makeStrokeName (length (strokes_ e)) in
    let stroke := makeStroke id name x y size color in
    let e := with_strokeIndex e
               (<[s_id stroke := length (strokes_ e)]> (strokeIndex_ e)) in
    with_strokes e (push_back (strokes_ e) stroke)
  else if String.eqb type "updateStroke" then
    let id := c_id command in
    let x := c_x command in
    let y := c_y command in
    match findStroke e id with
    | Some index =>
        with_strokes e
          (alter (add_point {| pt_x := x; pt_y := y |}) index (strokes_ e))
    | None => e
    end
  else if String.eqb type "finishStroke" then
    let id := c_id command in
    with_strokeIndex e (delete id (strokeIndex_ e))
  else e.

Definition move_to (x y : float) (p : Presence) : Presence :=
  {| p_id := p_id p; p_color := p_color p; p_x := x; p_y := y |}.

(** [None]: the palette was read out of bounds. *)
Definition updatePresence (e : Engine) (pointer_id : Z) (x y : float)
  : option Engine :=
  match presences_ e !! pointer_id with
  | None =>
      match colorForPointer pointer_id with
      | Some color =>
          Some (with_presences e
                  (<[pointer_id := {| p_id := pretty pointer_id;
                                      p_color := color;
                                      p_x := x; p_y := y |}]> (presences_ e)))
      | None => None
      end
  | Some p =>
      Some (with_presences e (<[pointer_id := move_to x y p]> (presences_ e)))
  end.

Definition pointerEvent (e : Engine) (event : Event) : option Engine :=
  let type := ev_type event in
  if negb (String.eqb type "pointerMove") then Some e
  else
    let pointer_id := ev_pointerId event in
    let x := ev_x event in
    let y := ev_y event in
    updatePresence e pointer_id x y.

(** *** tick *)

Definition rectangle_shape (rect : Rectangle) : val :=
  let shape := Obj [] in
  let shape := set_prop shape "id" (Str (r_id rect)) in
  let shape := set_prop shape "name" (Str (r_name rect)) in
  let shape := set_prop shape "kind" (Str "rectangle") in
  let shape := set_prop shape "x" (Num (r_x rect)) in
  let shape := set_prop shape "y" (Num (r_y rect)) in
  let shape := set_prop shape "width" (Num (r_width rect)) in
  let shape := set_prop shape "height" (Num (r_height rect)) in
  let shape := set_prop shape "color" (Str (r_color rect)) in
  shape.

Definition point_val (point : StrokePoint) : val :=
  let point_val := Obj [] in
  let point_val := set_prop point_val "x" (Num (pt_x point)) in
  let point_val := set_prop point_val "y" (Num (pt_y point)) in
  point_val.

(** The inner loop: [for (index = 0; index < stroke.points.size(); ++index)
    points.set(index, point_val)]. *)
Definition stroke_points (stroke : Stroke) : val :=
  fst (fold_left
         (fun '(points, index) point =>
            (set_index points index (point_val point), S index))
         (s_points stroke) (Arr [], 0)).

Definition stroke_shape (stroke : Stroke) : val :=
  let shape := Obj [] in
  let shape := set_prop shape "id" (Str (s_id stroke)) in
  let shape := set_prop shape "name" (Str (s_name stroke)) in
  let shape := set_prop shape "kind" (Str "stroke") in
  let shape := set_prop shape "color" (Str (s_color stroke)) in
  let shape := set_prop shape "size" (Num (s_size stroke)) in
  let points := stroke_points stroke in
  let shape := set_prop shape "points" points in
  shape.

Definition presence_val (presence : Presence) : val :=
  let presence_val := Obj [] in
  let presence_val := set_prop presence_val "id" (Str (p_id presence)) in
  let presence_val := set_prop presence_val "color" (Str (p_color presence)) in
  let presence_val := set_prop presence_val "x" (Num (p_x presence)) in
  let presence_val := set_prop presence_val "y" (Num (p_y presence)) in
  presence_val.

(** The two loops that fill [shapes], sharing the counter [shape_index]. *)
Definition tick_shapes (e : Engine) : val :=
  let shapes := Arr [] in
  let shape_index := 0 in
  let '(shapes, shape_index) :=
    fold_left
      (fun '(shapes, shape_index) rect =>
         (set_index shapes shape_index (rectangle_shape rect), S shape_index))
      (rectangles_ e) (shapes, shape_index) in
  let '(shapes, shape_index) :=
    fold_left
      (fun '(shapes, shape_index) stroke =>
         (set_index shapes shape_index (stroke_shape stroke), S shape_index))
      (strokes_ e) (shapes, shape_index) in
  shapes.

Definition tick_presences (e : Engine) : val :=
  fst (fold_left
         (fun '(presences, presence_index) '(id, presence) =>
            (set_index presences presence_index (presence_val presence),
             S presence_index))
         (map_to_list (presences_ e)) (Arr [], 0)).

Definition tick (e : Engine) : val :=
  let shapes := tick_shapes e in
  let presences := tick_presences e in
  let document := Obj [] in
  let document := set_prop document "id" (Str "doc-native") in
  let document := set_prop document "name" (Str "Composition native") in
  let document := set_prop document "shapes" shapes in
  let state := Obj [] in
  let state := set_prop state "document" document in
  let state := set_prop state "presences" presences in
  state.

Definition createEngine (width height : Z) : Engine :=
  resize Engine_new width height.

(** ** The bound interface, one call at a time *)

Inductive Call : Type :=
| CallResize (width height : Z)
| CallExecute (command : Command)
| CallPointerEvent (event : Event)
| CallTick.

(** A call returns the engine after it and the value handed back to the
    caller ([tick] alone returns one; it is a [const] method). *)
Definition call (e : Engine) (c : Call) : option (Engine * option val) :=
  match c with
  | CallResize width height => Some (resize e width height, None)
  | CallExecute command => Some (execute e command, None)
  | CallPointerEvent event =>
      match pointerEvent e event with
      | Some e' => Some (e', None)
      | None => None
      end
  | CallTick => Some (e, Some (tick e))
  end.

(** The engine after a sequence of calls. *)
Fixpoint run (e : Engine) (calls : list Call) : option Engine :=
  match calls with
  | [] => Some e
  | c :: rest =>
      match call e c with
      | Some (e', _) => run e' rest
      | None => None
      end
  end.

(** The states an engine can be in: made by [createEngine], then driven
    through the four bound methods. *)
Definition reachable (e : Engine) : Prop :=
  ∃ width height calls, run (createEngine width height) calls = Some e.

End Engine.

Arguments Rectangle : clear implicits.
Arguments Presence : clear implicits.
Arguments StrokePoint : clear implicits.
Arguments Stroke : clear implicits.
Arguments Engine : clear implicits.
Arguments Command : clear implicits.
Arguments Event : clear implicits.
Arguments val : clear implicits.
Arguments Call : clear implicits.

(** ** Concrete values used by the examples *)

Definition rect_cmd (x y : PrimFloat.float) : Command PrimFloat.float :=
  {| c_type := "createRectangle"; c_id := ""; c_x := x; c_y := y;
     c_width := 10%float; c_height := 20%float; c_size := 0%float;
     c_color := "#000000" |}.

Definition start_cmd (id : string) (x y : PrimFloat.float)
  : Command PrimFloat.float :=
  {| c_type := "startStroke"; c_id := id; c_x := x; c_y := y;
     c_width := 0%float; c_height := 0%float; c_size := 3%float;
     c_color := "red" |}.

Definition update_cmd (id : string) (x y : PrimFloat.float)
  : Command PrimFloat.float :=
  {| c_type := "updateStroke"; c_id := id; c_x := x; c_y := y;
     c_width := 0%float; c_height := 0%float; c_size := 0%float;
     c_color := "" |}.

Definition finish_cmd (id : string) : Command PrimFloat.float :=
  {| c_type := "finishStroke"; c_id := id; c_x := 0%float; c_y := 0%float;
     c_width := 0%float; c_height := 0%float; c_size := 0%float;
     c_color := "" |}.

Definition other_cmd (type : string) : Command PrimFloat.float :=
  {| c_type := type; c_id := "a"; c_x := 0%float; c_y := 0%float;
     c_width := 0%float; c_height := 0%float; c_size := 0%float;
     c_color := "" |}.

Definition move_ev (pointer_id : Z) (x y : PrimFloat.float)
  : Event PrimFloat.float :=
  {| ev_type := "pointerMove"; ev_pointerId := pointer_id;
     ev_x := x; ev_y := y |}.

Definition other_ev (type : string) (pointer_id : Z)
  : Event PrimFloat.float :=
  {| ev_type := type; ev_pointerId := pointer_id;
     ev_x := 1%float; ev_y := 2%float |}.

Definition engine0 : Engine PrimFloat.float := createEngine 800 600.

(** A session: a stroke is started before the first rectangle is made, the
    canvas is resized, and two pointers move, one of them twice. *)
Definition session : list (Call PrimFloat.float) :=
  [CallExecute (start_cmd "a" 1%float 2%float);
   CallExecute (rect_cmd 0%float 0%float);
   CallExecute (update_cmd "a" 3%float 4%float);
   CallPointerEvent (move_ev 3 10%float 20%float);
   CallResize (-5) 100;
   CallExecute (rect_cmd 5%float 5%float);
   CallExecute (update_cmd "a" 5%float 6%float);
   CallTick;
   CallPointerEvent (move_ev (-7) 1%float 1%float);
   CallPointerEvent (move_ev 3 11%float 21%float)].

(** A second session: the id ["a"] is started, finished and started again,
    and updated after each start. *)
Definition restart : list (Call PrimFloat.float) :=
  [CallExecute (start_cmd "a" 1%float 2%float);
   CallExecute (update_cmd "a" 3%float 4%float);
   CallExecute (finish_cmd "a");
   CallExecute (update_cmd "a" 5%float 6%float);
   CallExecute (start_cmd "a" 7%float 8%float);
   CallExecute (update_cmd "a" 9%float 9%float)].

(** The engine after [calls], the fresh engine if they have no result. *)
Definition after (calls : list (Call PrimFloat.float))
  : Engine PrimFloat.float :=
  default engine0 (run engine0 calls).

(** ** Notions used to state the properties *)

Section Notions.
Context {float : Type}.

(** Every entry of the active-stroke index designates a stroke of
    [strokes_] that carries the entry's id. *)
Definition index_consistent (e : Engine float) : Prop :=
  forall id k, strokeIndex_ e !! id = Some k ->
    exists s, strokes_ e !! k = Some s /\ s_id s = id.

(** The commands of one kind among a sequence of calls, in call order. *)
Definition commands_of (type : string) (calls : list (Call float))
  : list (Command float) :=
  omap (fun c =>
          match c with
          | CallExecute command =>
              if String.eqb (c_type command) type then Some command else None
          | _ => None
          end) calls.

(** The ["pointerMove"] events among a sequence of calls, in call order. *)
Definition pointer_moves (calls : list (Call float)) : list (Event float) :=
  omap (fun c =>
          match c with
          | CallPointerEvent event =>
              if String.eqb (ev_type event) "pointerMove" then Some event
              else None
          | _ => None
          end) calls.

(** The rectangle number [n] (counted from 1) made from a command. *)
Definition numbered_rectangle (n : nat) (command : Command float)
  : Rectangle float :=
  {| r_id := "rect-" +:+ pretty n;
     r_name := "Rectangle " +:+ pretty n;
     r_x := c_x command; r_y := c_y command;
     r_width := c_width command; r_height := c_height command;
     r_color := c_color command |}.

(** The point a [startStroke] or [updateStroke] command carries. *)
Definition command_point (command : Command float) : StrokePoint float :=
  {| pt_x := c_x command; pt_y := c_y command |}.

(** [execute] over a sequence of commands. *)
Definition execute_all (e : Engine float) (commands : list (Command float))
  : Engine float :=
  fold_left execute commands e.

(** The stroke [s] with [pts] appended to its points. *)
Definition add_points (pts : list (StrokePoint float)) (s : Stroke float)
  : Stroke float :=
  {| s_id := s_id s; s_name := s_name s; s_color := s_color s;
     s_size := s_size s; s_points := s_points s ++ pts |}.

(** A stroke that only gained points at the end. *)
Definition extends (s s' : Stroke float) : Prop :=
  s_id s' = s_id s /\ s_name s' = s_name s /\ s_color s' = s_color s /\
  s_size s' = s_size s /\ s_points s `prefix_of` s_points s'.

(** A command that neither starts nor finishes the stroke [id]. *)
Definition keeps_active (id : string) (command : Command float) : Prop :=
  ~ (c_id command = id /\
     (c_type command = "startStroke" \/ c_type command = "finishStroke")).

(** The [updateStroke] commands aimed at [id]. *)
Definition updates_of (id : string) (commands : list (Command float))
  : list (Command float) :=
  filter (fun u => c_type u = "updateStroke" /\ c_id u = id) commands.

(** The last ["pointerMove"] event of pointer [pointer_id] among the calls. *)
Definition last_move (pointer_id : Z) (calls : list (Call float))
  : option (Event float) :=
  last (filter (fun event => ev_pointerId event = pointer_id)
          (pointer_moves calls)).

(** The pointer ids whose palette read is inside the palette. *)
Definition palette_defined (event : Event float) : Prop :=
  is_Some (colorForPointer (ev_pointerId event)).

(** The arguments of the [resize] calls among a sequence of calls. *)
Definition resizes (calls : list (Call float)) : list (Z * Z) :=
  omap (fun c =>
          match c with
          | CallResize width height => Some (width, height)
          | _ => None
          end) calls.

(** The stroke [s] is the one the command [command] started as the stroke
    number [n] (counted from 1): it has the id, color and size of the
    command, the name of its number, and its points begin with the point of
    the command. *)
Definition started_by (n : nat) (command : Command float) (s : Stroke float)
  : Prop :=
  s_id s = c_id command /\
  s_name s = "Trace " +:+ pretty n /\
  s_color s = c_color command /\
  s_size s = c_size command /\
  [command_point command] `prefix_of` s_points s.

(** No entry of the active-stroke index designates position [k]. *)
Definition unindexed (e : Engine float) (k : nat) : Prop :=
  forall id, strokeIndex_ e !! id <> Some k.

(** An entry of the active-stroke index designates the last stroke of the
    collection that carries its id. *)
Definition index_latest (e : Engine float) : Prop :=
  forall id k, strokeIndex_ e !! id = Some k ->
    forall j s, k < j -> strokes_ e !! j = Some s -> s_id s <> id.

(** The commands among a sequence of calls, in call order. *)
Definition executed (calls : list (Call float)) : list (Command float) :=
  omap (fun c =>
          match c with
          | CallExecute command => Some command
          | _ => None
          end) calls.

(** The [startStroke] and [finishStroke] commands that carry [id]. *)
Definition lifecycle (id : string) (calls : list (Call float))
  : list (Command float) :=
  filter (fun u => c_id u = id /\
                   (c_type u = "startStroke" \/ c_type u = "finishStroke"))
    (executed calls).

End Notions.

(** * Properties *)

(** ** The palette lookup *)

Lemma abs_in_range (z : Z) :
  Int32.in_range z -> z <> Int32.INT_MIN -> Int32.abs z = Z.abs z.
Proof.
  unfold Int32.in_range, Int32.INT_MIN, Int32.INT_MAX, Int32.abs, Int32.wrap.
  intros Hr Hne. destruct (Z.ltb_spec z 0) as [Hneg|Hpos].
  - rewrite Z.abs_neq by lia.
    rewrite Z.mod_small by lia. lia.
  - rewrite Z.abs_eq by lia. reflexivity.
Qed.

Lemma normalized_bounds (z : Z) :
  Int32.in_range z -> z <> Int32.INT_MIN -> (0 <= normalized z < 6)%Z.
Proof.
  intros Hr Hne. unfold normalized, Int32.rem.
  rewrite abs_in_range by assumption.
  change (Z.of_nat (length palette)) with 6%Z.
  pose proof (Z.abs_nonneg z).
  rewrite Z.rem_mod_nonneg by lia.
  apply Z.mod_pos_bound. lia.
Qed.

(** Away from [INT_MIN] the palette is read inside its six entries. *)
Lemma colorForPointer_defined (z : Z) :
  Int32.in_range z -> z <> Int32.INT_MIN ->
  exists color, colorForPointer z = Some color /\ color ∈ palette.
Proof.
  intros Hr Hne. pose proof (normalized_bounds z Hr Hne) as Hb.
  unfold colorForPointer, array_at.
  destruct (Z.ltb_spec (normalized z) 0) as [?|_]; [lia|].
  destruct (palette !! Z.to_nat (normalized z)) as [color|] eqn:Hl.
  - exists color. split; [reflexivity|]. eapply list_elem_of_lookup_2, Hl.
  - apply lookup_ge_None in Hl. simpl in Hl. lia.
Qed.

Lemma palette_NoDup : NoDup palette.
Proof. apply (bool_decide_unpack _). vm_compute. reflexivity. Qed.

Lemma colorForPointer_residue (z : Z) :
  Int32.in_range z -> z <> Int32.INT_MIN ->
  colorForPointer z = palette !! Z.to_nat (Z.abs z `mod` 6).
Proof.
  intros Hr Hne. pose proof (normalized_bounds z Hr Hne) as Hb.
  unfold colorForPointer, array_at.
  destruct (Z.ltb_spec (normalized z) 0) as [?|_]; [lia|].
  unfold normalized, Int32.rem. rewrite abs_in_range by done.
  change (Z.of_nat (length palette)) with 6%Z.
  pose proof (Z.abs_nonneg z). by rewrite Z.rem_mod_nonneg by lia.
Qed.

(** C10. At [pointer_id = INT_MIN] the wrapped [std::abs] is still
    [INT_MIN], the truncating remainder by 6 is [-2], and the subscript
    [palette[-2]] is outside the six entries: [colorForPointer] has no
    defined result there, and [pointerEvent] on a fresh engine with that
    pointer id inherits it. *)
Theorem colorForPointer_INT_MIN :
  Int32.in_range Int32.INT_MIN /\
  Int32.abs Int32.INT_MIN = Int32.INT_MIN /\
  normalized Int32.INT_MIN = (-2)%Z /\
  colorForPointer Int32.INT_MIN = None /\
  pointerEvent (createEngine 800 600) (move_ev Int32.INT_MIN 0%float 0%float)
    = None.
Proof.
  repeat split; try (vm_compute; congruence).
Qed.

Section Theory.
Context {float : Type}.
Implicit Types (e : Engine float) (command : Command float)
  (event : Event float) (c : Call float) (calls : list (Call float)).

(** ** Sequences of calls *)

Lemma run_app e calls1 calls2 :
  run e (calls1 ++ calls2) = run e calls1 ≫= λ e1, run e1 calls2.
Proof.
  revert e. induction calls1 as [|c calls1 IH]; intros e; simpl; [done|].
  destruct (call e c) as [[e1 r]|]; simpl; [apply IH|done].
Qed.

Lemma run_snoc e calls c e1 :
  run e calls = Some e1 ->
  run e (calls ++ [c]) = fst <$> call e1 c.
Proof.
  intros Hrun. rewrite run_app, Hrun. simpl.
  by destruct (call e1 c) as [[e2 r]|].
Qed.

Lemma run_snoc_inv e calls c e' :
  run e (calls ++ [c]) = Some e' ->
  exists e1 r, run e calls = Some e1 /\ call e1 c = Some (e', r).
Proof.
  rewrite run_app. destruct (run e calls) as [e1|]; simpl; [|done].
  destruct (call e1 c) as [[e2 r]|] eqn:Hc; simpl; [|done].
  intros [= ->]. eauto.
Qed.

(** A property of the fresh engine that every call preserves holds in every
    reachable state. *)
Lemma run_invariant (P : Engine float -> Prop) :
  (forall e c e' r, P e -> call e c = Some (e', r) -> P e') ->
  forall calls e e', P e -> run e calls = Some e' -> P e'.
Proof.
  intros Hstep. induction calls as [|c calls IH]; intros e e' HP; simpl.
  - by intros [= <-].
  - destruct (call e c) as [[e1 r]|] eqn:Hc; [|done].
    apply IH. eapply Hstep; eauto.
Qed.

Lemma reachable_invariant (P : Engine float -> Prop) :
  (forall width height, P (createEngine width height)) ->
  (forall e c e' r, P e -> call e c = Some (e', r) -> P e') ->
  forall e, reachable e -> P e.
Proof.
  intros Hinit Hstep e (width & height & calls & Hrun).
  eapply run_invariant; eauto.
Qed.

Lemma reachable_call e c e' r :
  reachable e -> call e c = Some (e', r) -> reachable e'.
Proof.
  intros (width & height & calls & Hrun) Hc.
  exists width, height, (calls ++ [c]).
  erewrite run_snoc by eassumption. by rewrite Hc.
Qed.

(** A sequence of commands always has a result: [execute] is total. *)
Lemma run_commands e (commands : list (Command float)) :
  run e (CallExecute <$> commands) = Some (execute_all e commands).
Proof.
  revert e. induction commands as [|u commands IH]; intros e; [done|].
  simpl. apply IH.
Qed.

(** ** The branches of [execute] *)

Lemma execute_createRectangle e command :
  c_type command = "createRectangle" ->
  execute e command =
    with_rectangles e
      (push_back (rectangles_ e)
         (makeRectangle e (c_x command) (c_y command) (c_width command)
            (c_height command) (c_color command))).
Proof. intros H. unfold execute. by rewrite H. Qed.

Lemma execute_startStroke e command :
  c_type command = "startStroke" ->
  execute e command =
    with_strokes
      (with_strokeIndex e
         (<[c_id command := length (strokes_ e)]> (strokeIndex_ e)))
      (push_back (strokes_ e)
         (makeStroke (c_id command) (makeStrokeName (length (strokes_ e)))
            (c_x command) (c_y command) (c_size command) (c_color command))).
Proof. intros H. unfold execute. by rewrite H. Qed.

Lemma execute_updateStroke e command :
  c_type command = "updateStroke" ->
  execute e command =
    match findStroke e (c_id command) with
    | Some index =>
        with_strokes e
          (alter (add_point {| pt_x := c_x command; pt_y := c_y command |})
             index (strokes_ e))
    | None => e
    end.
Proof. intros H. unfold execute. by rewrite H. Qed.

Lemma execute_finishStroke e command :
  c_type command = "finishStroke" ->
  execute e command =
    with_strokeIndex e (delete (c_id command) (strokeIndex_ e)).
Proof. intros H. unfold execute. by rewrite H. Qed.

Lemma execute_other e command :
  c_type command <> "createRectangle" ->
  c_type command <> "startStroke" ->
  c_type command <> "updateStroke" ->
  c_type command <> "finishStroke" ->
  execute e command = e.
Proof.
  intros H1 H2 H3 H4. unfold execute.
  by rewrite (proj2 (String.eqb_neq _ _) H1), (proj2 (String.eqb_neq _ _) H2),
    (proj2 (String.eqb_neq _ _) H3), (proj2 (String.eqb_neq _ _) H4).
Qed.

(** The five cases of [execute], for proofs by cases on the command. *)
Lemma execute_cases e command :
  (c_type command = "createRectangle") \/
  (c_type command = "startStroke") \/
  (c_type command = "updateStroke") \/
  (c_type command = "finishStroke") \/
  (c_type command <> "startStroke" /\ c_type command <> "updateStroke" /\
   execute e command = e).
Proof.
  destruct (decide (c_type command = "createRectangle")); [by left|right].
  destruct (decide (c_type command = "startStroke")); [by left|right].
  destruct (decide (c_type command = "updateStroke")); [by left|right].
  destruct (decide (c_type command = "finishStroke")); [by left|right].
  split; [done|]. split; [done|]. by apply execute_other.
Qed.

Lemma with_strokeIndex_same e : with_strokeIndex e (strokeIndex_ e) = e.
Proof. by destruct e. Qed.

Lemma pointerEvent_other e event :
  ev_type event <> "pointerMove" -> pointerEvent e event = Some e.
Proof.
  intros H. unfold pointerEvent.
  by rewrite (proj2 (String.eqb_neq _ _) H).
Qed.

Lemma pointerEvent_move e event :
  ev_type event = "pointerMove" ->
  pointerEvent e event =
    updatePresence e (ev_pointerId event) (ev_x event) (ev_y event).
Proof. intros H. unfold pointerEvent. by rewrite H. Qed.

Lemma findStroke_inactive e id :
  strokeIndex_ e !! id = None -> findStroke e id = None.
Proof. intros H. unfold findStroke. by rewrite H. Qed.

(** ** resize *)

(** C8. [resize] stores [max(width, 0)] and [max(height, 0)], each clamped
    on its own, and touches nothing else of the engine; in particular
    [resize(-5, 100)] stores width 0 and height 100. *)
Theorem resize_clamps e (width height : Z) :
  width_ (resize e width height) = Z.max width 0 /\
  height_ (resize e width height) = Z.max height 0 /\
  rectangles_ (resize e width height) = rectangles_ e /\
  strokes_ (resize e width height) = strokes_ e /\
  strokeIndex_ (resize e width height) = strokeIndex_ e /\
  presences_ (resize e width height) = presences_ e /\
  width_ (resize e (-5) 100) = 0%Z /\
  height_ (resize e (-5) 100) = 100%Z.
Proof.
  unfold resize, with_width, with_height; cbn.
  destruct (Z.ltb_spec width 0); cbn;
    destruct (Z.ltb_spec height 0); cbn; repeat split; lia.
Qed.

(** ** Silent no-ops *)

(** C3. [updateStroke] and [finishStroke] on an id that is not in the
    active-stroke index, a command of any other kind than the four known
    ones, and an event that is not a ["pointerMove"], all leave the whole
    engine as it was; and once [finishStroke id] has run, [id] is out of
    the index, so a later [updateStroke id] or [finishStroke id] changes
    nothing either. *)
Theorem silent_noops e :
  (forall command,
     c_type command = "updateStroke" \/ c_type command = "finishStroke" ->
     strokeIndex_ e !! c_id command = None ->
     execute e command = e) /\
  (forall command,
     c_type command <> "createRectangle" ->
     c_type command <> "startStroke" ->
     c_type command <> "updateStroke" ->
     c_type command <> "finishStroke" ->
     execute e command = e) /\
  (forall event,
     ev_type event <> "pointerMove" -> pointerEvent e event = Some e) /\
  (forall finish command,
     c_type finish = "finishStroke" ->
     c_type command = "updateStroke" \/ c_type command = "finishStroke" ->
     c_id command = c_id finish ->
     execute (execute e finish) command = execute e finish).
Proof.
  assert (Hnoop : forall e' command,
     c_type command = "updateStroke" \/ c_type command = "finishStroke" ->
     strokeIndex_ e' !! c_id command = None ->
     execute e' command = e').
  { intros e' command [Ht|Ht] Hid.
    - rewrite execute_updateStroke by done.
      by rewrite findStroke_inactive.
    - rewrite execute_finishStroke by done.
      rewrite delete_id by done. apply with_strokeIndex_same. }
  split; [apply Hnoop|]. split; [apply execute_other|].
  split; [apply pointerEvent_other|].
  intros finish command Hf Ht Hid. apply Hnoop; [done|].
  rewrite (execute_finishStroke _ _ Hf), Hid. simpl.
  apply lookup_delete_eq.
Qed.

(** ** What each call leaves alone *)

Lemma resize_eq e (width height : Z) :
  resize e width height =
    with_height (with_width e (Z.max width 0)) (Z.max height 0).
Proof.
  unfold resize, with_width, with_height; cbn.
  destruct (Z.ltb_spec width 0); cbn;
    destruct (Z.ltb_spec height 0); cbn; f_equal; lia.
Qed.

Lemma updatePresence_frame e (pointer_id : Z) (x y : float) e' :
  updatePresence e pointer_id x y = Some e' ->
  e' = with_presences e (presences_ e').
Proof.
  unfold updatePresence. intros H.
  destruct (presences_ e !! pointer_id);
    [|destruct (colorForPointer pointer_id)]; by simplify_eq.
Qed.

Lemma pointerEvent_frame e event e' :
  pointerEvent e event = Some e' -> e' = with_presences e (presences_ e').
Proof.
  unfold pointerEvent.
  destruct (negb _); [intros [= <-]; by destruct e|].
  apply updatePresence_frame.
Qed.

Lemma execute_presences e command :
  presences_ (execute e command) = presences_ e.
Proof.
  unfold execute. repeat case_match; reflexivity.
Qed.

Lemma execute_rectangles e command :
  rectangles_ (execute e command) =
    if String.eqb (c_type command) "createRectangle"
    then rectangles_ e ++
           [numbered_rectangle (length (rectangles_ e) + 1) command]
    else rectangles_ e.
Proof.
  unfold execute. repeat case_match; reflexivity.
Qed.

Lemma call_rectangles e c e' r :
  call e c = Some (e', r) ->
  rectangles_ e' = rectangles_ e ++
    imap (fun i => numbered_rectangle (length (rectangles_ e) + i + 1))
      (commands_of "createRectangle" [c]).
Proof.
  destruct c as [width height|command|event|]; simpl; intros H.
  - simplify_eq. rewrite resize_eq. simpl. by rewrite app_nil_r.
  - simplify_eq. rewrite execute_rectangles.
    destruct (String.eqb _ _); simpl; [|by rewrite app_nil_r].
    by rewrite Nat.add_0_r.
  - destruct (pointerEvent e event) as [e1|] eqn:He; simplify_eq.
    rewrite (pointerEvent_frame _ _ _ He). simpl. by rewrite app_nil_r.
  - simplify_eq. by rewrite app_nil_r.
Qed.

Lemma commands_of_cons type c calls :
  commands_of type (c :: calls) = commands_of type [c] ++ commands_of type calls.
Proof. unfold commands_of. simpl. by case_match. Qed.

Lemma run_rectangles calls e e' :
  run e calls = Some e' ->
  rectangles_ e' = rectangles_ e ++
    imap (fun i => numbered_rectangle (length (rectangles_ e) + i + 1))
      (commands_of "createRectangle" calls).
Proof.
  revert e. induction calls as [|c calls IH]; intros e Hrun; simpl in Hrun.
  - simplify_eq. simpl. by rewrite app_nil_r.
  - destruct (call e c) as [[e1 r]|] eqn:Hc; [|done].
    rewrite (IH _ Hrun), (call_rectangles _ _ _ _ Hc).
    rewrite (commands_of_cons _ c calls), imap_app, <-app_assoc.
    f_equal. f_equal. rewrite length_app, length_imap.
    apply imap_ext. intros i x _. simpl. f_equal. lia.
Qed.

Lemma createEngine_fields (width height : Z) :
  rectangles_ (createEngine (float:=float) width height) = [] /\
  strokes_ (createEngine (float:=float) width height) = [] /\
  strokeIndex_ (createEngine (float:=float) width height) = ∅ /\
  presences_ (createEngine (float:=float) width height) = ∅.
Proof. unfold createEngine. rewrite resize_eq. by simpl. Qed.

(** ** Rectangles are numbered by insertion *)

(** C4. From a fresh engine and for every sequence of calls, the rectangles
    are those of the [createRectangle] commands, in call order, and the one
    made by the command at position [i] (counted from 0, so the [i+1]-th
    command) has id ["rect-"(i+1)] and name ["Rectangle "(i+1)]; each is
    numbered from the rectangle count at the time it is inserted.  A
    sequence of commands always runs to the end. *)
Theorem rectangle_numbering :
  (forall (width height : Z) (commands : list (Command float)),
     run (createEngine width height) (CallExecute <$> commands) =
       Some (execute_all (createEngine width height) commands)) /\
  (forall (width height : Z) calls e',
     run (createEngine width height) calls = Some e' ->
     length (rectangles_ e') = length (commands_of "createRectangle" calls) /\
     forall i command,
       commands_of "createRectangle" calls !! i = Some command ->
       rectangles_ e' !! i = Some
         {| r_id := "rect-" +:+ pretty (i + 1);
            r_name := "Rectangle " +:+ pretty (i + 1);
            r_x := c_x command; r_y := c_y command;
            r_width := c_width command; r_height := c_height command;
            r_color := c_color command |}) /\
  (forall e command,
     c_type command = "createRectangle" ->
     rectangles_ (execute e command) = rectangles_ e ++
       [{| r_id := "rect-" +:+ pretty (length (rectangles_ e) + 1);
           r_name := "Rectangle " +:+ pretty (length (rectangles_ e) + 1);
           r_x := c_x command; r_y := c_y command;
           r_width := c_width command; r_height := c_height command;
           r_color := c_color command |}]).
Proof.
  split; [intros; apply run_commands|]. split.
  - intros width height calls e' Hrun. apply run_rectangles in Hrun.
    destruct (createEngine_fields width height) as (Hr & _).
    rewrite Hr in Hrun. simpl in Hrun. rewrite Hrun.
    split; [by rewrite length_imap|].
    intros i command Hi. rewrite list_lookup_imap, Hi. reflexivity.
  - intros e command Ht. rewrite execute_rectangles, Ht. reflexivity.
Qed.

(** ** Stroke ids *)

Lemma fmap_alter_add_point (pt : StrokePoint float) (k : nat)
    (l : list (Stroke float)) :
  s_id <$> alter (add_point pt) k l = s_id <$> l.
Proof.
  rewrite (list_fmap_alter s_id (add_point pt) (fun x => x)).
  - by apply list_alter_id.
  - by apply Forall_forall.
Qed.

Lemma execute_stroke_ids e command :
  s_id <$> strokes_ (execute e command) =
    (s_id <$> strokes_ e) ++
    (c_id <$> commands_of "startStroke" [CallExecute command]).
Proof.
  destruct (execute_cases e command) as [H|[H|[H|[H|H]]]].
  - rewrite execute_createRectangle by done. unfold commands_of. simpl.
    rewrite H. simpl. by rewrite app_nil_r.
  - rewrite execute_startStroke by done. unfold commands_of. simpl.
    rewrite H. simpl. unfold push_back. by rewrite fmap_app.
  - rewrite execute_updateStroke by done. unfold commands_of. simpl.
    rewrite H. simpl. rewrite app_nil_r.
    destruct (findStroke e (c_id command)); [|done].
    simpl. apply fmap_alter_add_point.
  - rewrite execute_finishStroke by done. unfold commands_of. simpl.
    rewrite H. simpl. by rewrite app_nil_r.
  - destruct H as (Hne & _ & ->). unfold commands_of. simpl.
    rewrite (proj2 (String.eqb_neq _ _) Hne). simpl. by rewrite app_nil_r.
Qed.

Lemma call_stroke_ids e c e' r :
  call e c = Some (e', r) ->
  s_id <$> strokes_ e' =
    (s_id <$> strokes_ e) ++ (c_id <$> commands_of "startStroke" [c]).
Proof.
  destruct c as [width height|command|event|]; simpl; intros H.
  - simplify_eq. rewrite resize_eq. simpl. by rewrite app_nil_r.
  - simplify_eq. apply execute_stroke_ids.
  - destruct (pointerEvent e event) as [e1|] eqn:He; simplify_eq.
    rewrite (pointerEvent_frame _ _ _ He). simpl. by rewrite app_nil_r.
  - simplify_eq. by rewrite app_nil_r.
Qed.

Lemma run_stroke_ids calls e e' :
  run e calls = Some e' ->
  s_id <$> strokes_ e' =
    (s_id <$> strokes_ e) ++ (c_id <$> commands_of "startStroke" calls).
Proof.
  revert e. induction calls as [|c calls IH]; intros e Hrun; simpl in Hrun.
  - simplify_eq. simpl. by rewrite app_nil_r.
  - destruct (call e c) as [[e1 r]|] eqn:Hc; [|done].
    rewrite (IH _ Hrun), (call_stroke_ids _ _ _ _ Hc).
    by rewrite (commands_of_cons _ c calls), fmap_app, <-app_assoc.
Qed.

Lemma numbered_rectangle_ids_NoDup (cs : list (Command float)) :
  NoDup (r_id <$> imap (fun i => numbered_rectangle (i + 1)) cs).
Proof.
  apply NoDup_alt. intros i j id.
  rewrite !list_lookup_fmap, !list_lookup_imap.
  destruct (cs !! i) as [ci|]; [|done]. destruct (cs !! j) as [cj|]; [|done].
  simpl. intros [= <-] [= Heq].
  simpl in Heq. apply pretty_nat_inj in Heq. lia.
Qed.

(** C1, as the code has it.  From a fresh engine and for every sequence of
    calls: no two rectangles share an id; the ids of the stroke collection
    are exactly the ids the [startStroke] commands carried, in call order,
    so no two strokes share an id as long as no two [startStroke] commands
    carried the same one (the engine itself never rejects or replaces a
    stroke whose id is taken).  A sequence of commands always runs to the
    end. *)
Theorem ids_unique :
  (forall (width height : Z) (commands : list (Command float)),
     run (createEngine width height) (CallExecute <$> commands) =
       Some (execute_all (createEngine width height) commands)) /\
  (forall (width height : Z) calls e',
     run (createEngine width height) calls = Some e' ->
     NoDup (r_id <$> rectangles_ e') /\
     s_id <$> strokes_ e' = c_id <$> commands_of "startStroke" calls /\
     (NoDup (c_id <$> commands_of "startStroke" calls) ->
      NoDup (s_id <$> strokes_ e'))).
Proof.
  split; [intros; apply run_commands|].
  intros width height calls e' Hrun.
  destruct (createEngine_fields width height) as (Hr & Hs & _).
  pose proof (run_rectangles _ _ _ Hrun) as Hrects.
  pose proof (run_stroke_ids _ _ _ Hrun) as Hids.
  rewrite Hr in Hrects. rewrite Hs in Hids. simpl in Hrects, Hids.
  split; [|split].
  - rewrite Hrects. apply numbered_rectangle_ids_NoDup.
  - exact Hids.
  - by rewrite Hids.
Qed.

(** ** The active-stroke index *)

Lemma index_consistent_execute e command :
  index_consistent e -> index_consistent (execute e command).
Proof.
  intros Hinv id k.
  destruct (execute_cases e command) as [H|[H|[H|[H|(_ & Hnu & H)]]]].
  - rewrite execute_createRectangle by done. simpl. apply Hinv.
  - rewrite execute_startStroke by done. simpl. unfold push_back.
    destruct (decide (c_id command = id)) as [<-|Hne].
    + rewrite lookup_insert_eq. intros [= <-].
      eexists. split; [apply list_lookup_middle; reflexivity|done].
    + rewrite lookup_insert_ne by done. intros Hk.
      destruct (Hinv _ _ Hk) as (s & Hs & Hid).
      exists s. split; [by apply lookup_app_l_Some|done].
  - rewrite execute_updateStroke by done.
    destruct (findStroke e (c_id command)) as [index|]; [|apply Hinv].
    simpl. intros Hk. destruct (Hinv _ _ Hk) as (s & Hs & Hid).
    destruct (decide (index = k)) as [->|Hne].
    + eexists. rewrite list_lookup_alter_eq, Hs. by split.
    + exists s. by rewrite list_lookup_alter_ne.
  - rewrite execute_finishStroke by done. simpl.
    intros Hk. apply lookup_delete_Some in Hk as [_ Hk]. by apply Hinv.
  - rewrite H. apply Hinv.
Qed.

Lemma index_consistent_call e c e' r :
  index_consistent e -> call e c = Some (e', r) -> index_consistent e'.
Proof.
  intros Hinv. destruct c as [width height|command|event|]; simpl; intros H.
  - simplify_eq. rewrite resize_eq. exact Hinv.
  - simplify_eq. by apply index_consistent_execute.
  - destruct (pointerEvent e event) as [e1|] eqn:He; simplify_eq.
    rewrite (pointerEvent_frame _ _ _ He). exact Hinv.
  - by simplify_eq.
Qed.

Lemma index_consistent_reachable e : reachable e -> index_consistent e.
Proof.
  apply reachable_invariant.
  - intros width height id k.
    destruct (createEngine_fields width height) as (_ & _ & -> & _).
    by rewrite lookup_empty.
  - apply index_consistent_call.
Qed.

Lemma findStroke_consistent e id k :
  index_consistent e -> strokeIndex_ e !! id = Some k ->
  k < length (strokes_ e) /\ findStroke e id = Some k.
Proof.
  intros Hinv Hk. destruct (Hinv _ _ Hk) as (s & Hs & _).
  apply lookup_lt_Some in Hs. split; [done|].
  unfold findStroke. rewrite Hk.
  destruct (Nat.leb_spec (length (strokes_ e)) k); [lia|done].
Qed.

(** C9. In every state reachable through [resize], [execute],
    [pointerEvent] and [tick], an entry [(id, k)] of the active-stroke index
    has [k] below the size of the stroke collection and the stroke at
    position [k] carries [id]; so [findStroke id] returns that position and
    its bounds check is never the reason for a [nullptr]. *)
Theorem active_index_consistent e id k :
  reachable e ->
  strokeIndex_ e !! id = Some k ->
  k < length (strokes_ e) /\
  (exists s, strokes_ e !! k = Some s /\ s_id s = id) /\
  findStroke e id = Some k /\
  (length (strokes_ e) <=? k) = false.
Proof.
  intros Hreach Hk. pose proof (index_consistent_reachable _ Hreach) as Hinv.
  destruct (findStroke_consistent _ _ _ Hinv Hk) as [Hlt Hfind].
  repeat split; [done|by apply Hinv|done|].
  apply Nat.leb_gt. exact Hlt.
Qed.

(** ** Stroke points *)

Lemma extends_refl (s : Stroke float) : extends s s.
Proof. by repeat split. Qed.

Lemma extends_add_point (pt : StrokePoint float) (s : Stroke float) :
  extends s (add_point pt s).
Proof.
  repeat split. simpl. unfold push_back. by apply prefix_app_r.
Qed.

Lemma execute_extends e command k s :
  strokes_ e !! k = Some s ->
  exists s', strokes_ (execute e command) !! k = Some s' /\ extends s s'.
Proof.
  intros Hs.
  destruct (execute_cases e command) as [H|[H|[H|[H|(_ & Hnu & H)]]]].
  - rewrite execute_createRectangle by done. simpl.
    eauto using extends_refl.
  - rewrite execute_startStroke by done. simpl. unfold push_back.
    exists s. split; [by apply lookup_app_l_Some|apply extends_refl].
  - rewrite execute_updateStroke by done.
    destruct (findStroke e (c_id command)) as [index|];
      [|eauto using extends_refl].
    simpl. destruct (decide (index = k)) as [->|Hne].
    + eexists. rewrite list_lookup_alter_eq, Hs. simpl.
      split; [done|apply extends_add_point].
    + exists s. rewrite list_lookup_alter_ne by done.
      split; [done|apply extends_refl].
  - rewrite execute_finishStroke by done. simpl.
    eauto using extends_refl.
  - rewrite H. eauto using extends_refl.
Qed.

Lemma call_extends e c e' r k s :
  call e c = Some (e', r) ->
  strokes_ e !! k = Some s ->
  exists s', strokes_ e' !! k = Some s' /\ extends s s'.
Proof.
  destruct c as [width height|command|event|]; simpl; intros H Hs.
  - simplify_eq. rewrite resize_eq. simpl. eauto using extends_refl.
  - simplify_eq. by apply execute_extends.
  - destruct (pointerEvent e event) as [e1|] eqn:He; simplify_eq.
    rewrite (pointerEvent_frame _ _ _ He). simpl. eauto using extends_refl.
  - simplify_eq. eauto using extends_refl.
Qed.

(** [updateStroke] on an active id, in a consistent state. *)
Lemma execute_update_active e command k :
  index_consistent e ->
  c_type command = "updateStroke" ->
  strokeIndex_ e !! c_id command = Some k ->
  execute e command =
    with_strokes e (alter (add_point (command_point command)) k (strokes_ e)).
Proof.
  intros Hinv Ht Hk. rewrite execute_updateStroke by done.
  destruct (findStroke_consistent _ _ _ Hinv Hk) as [_ ->]. reflexivity.
Qed.

Lemma add_points_nil (s : Stroke float) : add_points [] s = s.
Proof. unfold add_points. rewrite app_nil_r. by destruct s. Qed.

Lemma add_points_app (p1 p2 : list (StrokePoint float)) (s : Stroke float) :
  add_points p2 (add_points p1 s) = add_points (p1 ++ p2) s.
Proof. unfold add_points. simpl. by rewrite app_assoc. Qed.

Lemma updates_of_cons id (u : Command float) commands :
  updates_of id (u :: commands) = updates_of id [u] ++ updates_of id commands.
Proof. unfold updates_of. apply (filter_app _ [u] commands). Qed.

Lemma updates_of_skip id (u : Command float) :
  ~ (c_type u = "updateStroke" /\ c_id u = id) -> updates_of id [u] = [].
Proof. intros H. unfold updates_of. by rewrite filter_cons_False. Qed.

Lemma updates_of_keep id (u : Command float) :
  c_type u = "updateStroke" -> c_id u = id -> updates_of id [u] = [u].
Proof. intros H1 H2. unfold updates_of. by rewrite filter_cons_True. Qed.

Lemma execute_keeps_active e command id k s :
  index_consistent e ->
  strokeIndex_ e !! id = Some k ->
  strokes_ e !! k = Some s ->
  keeps_active id command ->
  strokeIndex_ (execute e command) !! id = Some k /\
  strokes_ (execute e command) !! k =
    Some (add_points (command_point <$> updates_of id [command]) s).
Proof.
  intros Hinv Hk Hs Hkeep.
  destruct (execute_cases e command) as [H|[H|[H|[H|(_ & Hnu & H)]]]].
  - rewrite execute_createRectangle by done.
    rewrite updates_of_skip by (rewrite H; intros [? _]; done).
    simpl. by rewrite add_points_nil.
  - rewrite execute_startStroke by done.
    rewrite updates_of_skip by (rewrite H; intros [? _]; done).
    simpl. unfold push_back. rewrite add_points_nil.
    assert (c_id command <> id) by (intros ?; apply Hkeep; auto).
    rewrite lookup_insert_ne by done. split; [done|].
    by apply lookup_app_l_Some.
  - destruct (decide (c_id command = id)) as [Hid|Hne].
    + rewrite (execute_update_active e command k) by (by rewrite ?Hid).
      rewrite updates_of_keep by done. simpl. split; [done|].
      by rewrite list_lookup_alter_eq, Hs.
    + rewrite updates_of_skip by (intros [_ ?]; done).
      rewrite add_points_nil, execute_updateStroke by done.
      destruct (findStroke e (c_id command)) as [index|] eqn:Hf; [|done].
      simpl. split; [done|].
      assert (index <> k) as Hik.
      { intros ->. unfold findStroke in Hf.
        destruct (strokeIndex_ e !! c_id command) as [j|] eqn:Hj; [|done].
        destruct (length (strokes_ e) <=? j); simplify_eq.
        destruct (Hinv _ _ Hj) as (s1 & Hs1 & Hid1).
        destruct (Hinv _ _ Hk) as (s2 & Hs2 & Hid2). congruence. }
      by rewrite list_lookup_alter_ne.
  - rewrite execute_finishStroke by done.
    rewrite updates_of_skip by (rewrite H; intros [? _]; done).
    assert (c_id command <> id) by (intros ?; apply Hkeep; auto).
    simpl. rewrite lookup_delete_ne by done. by rewrite add_points_nil.
  - rewrite H, updates_of_skip by (intros [? _]; done).
    by rewrite add_points_nil.
Qed.

(** The stroke started by [start] collects, in call order, the points of the
    [updateStroke] commands aimed at it, whatever other commands come in
    between, as long as none starts or finishes its id. *)
Lemma execute_all_keeps_active commands e id k s :
  index_consistent e ->
  strokeIndex_ e !! id = Some k ->
  strokes_ e !! k = Some s ->
  Forall (keeps_active id) commands ->
  strokes_ (execute_all e commands) !! k =
    Some (add_points (command_point <$> updates_of id commands) s).
Proof.
  revert e s. induction commands as [|u commands IH]; intros e s Hinv Hk Hs Hall.
  - simpl. by rewrite add_points_nil.
  - apply Forall_cons in Hall as [Hu Hall].
    destruct (execute_keeps_active e u id k s Hinv Hk Hs Hu) as [Hk' Hs'].
    change (execute_all e (u :: commands))
      with (execute_all (execute e u) commands).
    rewrite (IH _ _ (index_consistent_execute _ u Hinv) Hk' Hs' Hall).
    rewrite add_points_app, <-fmap_app. by rewrite <-updates_of_cons.
Qed.

Lemma alter_as_insert {A} (f : A -> A) (l : list A) (k : nat) (x : A) :
  l !! k = Some x -> alter f k l = <[k := f x]> l.
Proof.
  revert k. induction l as [|y l IH]; intros [|k] H; simplify_eq/=; [done|].
  f_equal. by apply IH.
Qed.

(** C2. [startStroke] appends a stroke whose points are the single point of
    the command.  In a reachable state, [updateStroke] on an active id
    replaces the stroke the index designates by the same stroke with the
    command's point added at the end.  No call ever does anything else to
    the points of a stroke already in the collection than extend them at the
    end, nor changes its other fields.  So the stroke started by [start]
    holds, after any further commands that neither start nor finish its id,
    the point of [start] followed by the points of the [updateStroke]
    commands aimed at it, in call order: [n + 1] points after [n] updates. *)
Theorem stroke_points_append_only :
  (forall e command,
     c_type command = "startStroke" ->
     strokes_ (execute e command) = strokes_ e ++
       [{| s_id := c_id command;
           s_name := "Trace " +:+ pretty (length (strokes_ e) + 1);
           s_color := c_color command;
           s_size := c_size command;
           s_points := [command_point command] |}]) /\
  (forall e command k,
     reachable e ->
     c_type command = "updateStroke" ->
     strokeIndex_ e !! c_id command = Some k ->
     exists s,
       strokes_ e !! k = Some s /\
       strokes_ (execute e command) =
         <[k := add_points [command_point command] s]> (strokes_ e)) /\
  (forall e c e' r k s,
     call e c = Some (e', r) ->
     strokes_ e !! k = Some s ->
     exists s', strokes_ e' !! k = Some s' /\ extends s s') /\
  (forall e start commands,
     reachable e ->
     c_type start = "startStroke" ->
     Forall (keeps_active (c_id start)) commands ->
     strokes_ (execute_all (execute e start) commands)
       !! length (strokes_ e) = Some
       {| s_id := c_id start;
          s_name := "Trace " +:+ pretty (length (strokes_ e) + 1);
          s_color := c_color start;
          s_size := c_size start;
          s_points := command_point start ::
            (command_point <$> updates_of (c_id start) commands) |}) /\
  (forall e start updates,
     reachable e ->
     c_type start = "startStroke" ->
     Forall (fun u => c_type u = "updateStroke" /\ c_id u = c_id start)
       updates ->
     exists s,
       strokes_ (execute_all (execute e start) updates)
         !! length (strokes_ e) = Some s /\
       s_points s = command_point start :: (command_point <$> updates) /\
       length (s_points s) = length updates + 1).
Proof.
  assert (Hseq : forall e start commands,
     reachable e ->
     c_type start = "startStroke" ->
     Forall (keeps_active (c_id start)) commands ->
     strokes_ (execute_all (execute e start) commands)
       !! length (strokes_ e) = Some
       {| s_id := c_id start;
          s_name := "Trace " +:+ pretty (length (strokes_ e) + 1);
          s_color := c_color start;
          s_size := c_size start;
          s_points := command_point start ::
            (command_point <$> updates_of (c_id start) commands) |}).
  { intros e start commands Hreach Ht Hall.
    pose proof (index_consistent_reachable _ Hreach) as Hinv.
    rewrite (execute_all_keeps_active commands _ (c_id start)
               (length (strokes_ e))
               (makeStroke (c_id start) (makeStrokeName (length (strokes_ e)))
                  (c_x start) (c_y start) (c_size start) (c_color start)));
      [reflexivity|by apply index_consistent_execute| | |done].
    - rewrite execute_startStroke by done. simpl. apply lookup_insert_eq.
    - rewrite execute_startStroke by done. simpl. unfold push_back.
      by apply list_lookup_middle. }
  split; [|split; [|split; [|split]]].
  - intros e command Ht. by rewrite execute_startStroke.
  - intros e command k Hreach Ht Hk.
    pose proof (index_consistent_reachable _ Hreach) as Hinv.
    destruct (Hinv _ _ Hk) as (s & Hs & _). exists s. split; [done|].
    rewrite (execute_update_active e command k) by done. simpl.
    by apply alter_as_insert.
  - apply call_extends.
  - exact Hseq.
  - intros e start updates Hreach Ht Hall. eexists. split.
    + apply Hseq; [done..|].
      eapply Forall_impl; [exact Hall|]. intros u [Hu _] [_ [?|?]]; congruence.
    + simpl. assert (updates_of (c_id start) updates = updates) as ->.
      { unfold updates_of. induction Hall as [|u us Hu _ IH]; [done|].
        rewrite filter_cons_True by done. by rewrite IH. }
      split; [done|]. rewrite length_fmap. lia.
Qed.

(** ** The snapshot *)

Lemma items_set_end (items : list (val float)) (v : val float) :
  items_set items (length items) v = items ++ [v].
Proof.
  unfold items_set. rewrite Nat.ltb_irrefl, Nat.sub_diag. reflexivity.
Qed.

(** A loop that writes [g x] at a counter that starts at the length of the
    array and is incremented at every turn appends the [g x] in order. *)
Lemma fold_set_index {B} (step : val float * nat -> B -> val float * nat)
    (g : B -> val float) (l : list B) (items : list (val float)) :
  (forall a i x, step (a, i) x = (set_index a i (g x), S i)) ->
  fold_left step l (Arr items, length items) =
    (Arr (items ++ (g <$> l)), length items + length l).
Proof.
  intros Hstep. revert items.
  induction l as [|x l IH]; intros items; simpl.
  - by rewrite app_nil_r, Nat.add_0_r.
  - rewrite Hstep. simpl. rewrite items_set_end.
    replace (S (length items)) with (length (items ++ [g x]))
      by (rewrite length_app; simpl; lia).
    rewrite IH, length_app, <-app_assoc. simpl. f_equal. lia.
Qed.

Lemma stroke_points_eq (stroke : Stroke float) :
  stroke_points stroke = Arr (point_val <$> s_points stroke).
Proof.
  unfold stroke_points.
  by rewrite (fold_set_index _ point_val) by done.
Qed.

Lemma tick_shapes_eq e :
  tick_shapes e =
    Arr ((rectangle_shape <$> rectangles_ e) ++ (stroke_shape <$> strokes_ e)).
Proof.
  unfold tick_shapes.
  rewrite (fold_set_index _ rectangle_shape (rectangles_ e) []) by done.
  simpl.
  replace (length (rectangles_ e))
    with (length (rectangle_shape <$> rectangles_ e)) by apply length_fmap.
  by rewrite (fold_set_index _ stroke_shape) by done.
Qed.

Lemma tick_presences_eq e :
  tick_presences e = Arr (presence_val <$> (map_to_list (presences_ e)).*2).
Proof.
  unfold tick_presences.
  rewrite (fold_set_index _ (fun kp => presence_val kp.2) _ [])
    by (by intros a i [id presence]).
  simpl. by rewrite <-list_fmap_compose.
Qed.

(** C5. The shapes of a snapshot are all the rectangles, each tagged
    ["rectangle"], in the order of [rectangles_], followed by all the
    strokes, each tagged ["stroke"] and carrying all its points in order,
    in the order of [strokes_]. *)
Theorem tick_shapes_order e :
  tick e =
    Obj [("document",
          Obj [("id", Str "doc-native");
               ("name", Str "Composition native");
               ("shapes",
                Arr (((fun rect =>
                         Obj [("id", Str (r_id rect));
                              ("name", Str (r_name rect));
                              ("kind", Str "rectangle");
                              ("x", Num (r_x rect));
                              ("y", Num (r_y rect));
                              ("width", Num (r_width rect));
                              ("height", Num (r_height rect));
                              ("color", Str (r_color rect))])
                        <$> rectangles_ e) ++
                     ((fun stroke =>
                         Obj [("id", Str (s_id stroke));
                              ("name", Str (s_name stroke));
                              ("kind", Str "stroke");
                              ("color", Str (s_color stroke));
                              ("size", Num (s_size stroke));
                              ("points",
                               Arr ((fun point =>
                                       Obj [("x", Num (pt_x point));
                                            ("y", Num (pt_y point))])
                                      <$> s_points stroke))])
                        <$> strokes_ e)))]);
         ("presences", tick_presences e)].
Proof.
  unfold tick. rewrite tick_shapes_eq. simpl.
  repeat lazymatch goal with
         | |- _ <$> _ = _ <$> _ => fail
         | |- _ => f_equal
         end.
  apply list_fmap_ext. intros _ stroke _.
  unfold stroke_shape. by rewrite stroke_points_eq.
Qed.

(** ** Presences *)

Lemma updatePresence_new e (pointer_id : Z) (x y : float) :
  presences_ e !! pointer_id = None ->
  updatePresence e pointer_id x y =
    (fun color =>
       with_presences e
         (<[pointer_id := {| p_id := pretty pointer_id; p_color := color;
                             p_x := x; p_y := y |}]> (presences_ e)))
    <$> colorForPointer pointer_id.
Proof.
  intros H. unfold updatePresence. rewrite H.
  by destruct (colorForPointer pointer_id).
Qed.

Lemma updatePresence_seen e (pointer_id : Z) (x y : float) p :
  presences_ e !! pointer_id = Some p ->
  updatePresence e pointer_id x y =
    Some (with_presences e
            (<[pointer_id := {| p_id := p_id p; p_color := p_color p;
                                p_x := x; p_y := y |}]> (presences_ e))).
Proof. intros H. unfold updatePresence. by rewrite H. Qed.

Lemma pointer_moves_app calls1 calls2 :
  pointer_moves (calls1 ++ calls2) =
    pointer_moves (float:=float) calls1 ++ pointer_moves calls2.
Proof. apply omap_app. Qed.

Lemma last_move_snoc_other (pointer_id : Z) calls c :
  (forall event, pointer_moves [c] = [event] ->
                 ev_pointerId event <> pointer_id) ->
  (pointer_moves [c] = [] \/ exists event, pointer_moves [c] = [event]) ->
  last_move pointer_id (calls ++ [c]) = last_move pointer_id calls.
Proof.
  intros Hne Hc. unfold last_move. rewrite pointer_moves_app, filter_app.
  destruct Hc as [->|[event Hev]].
  - by rewrite filter_nil, app_nil_r.
  - rewrite Hev, filter_cons_False by (by apply Hne).
    by rewrite filter_nil, app_nil_r.
Qed.

Lemma last_move_snoc_same calls event :
  ev_type event = "pointerMove" ->
  last_move (ev_pointerId event) (calls ++ [CallPointerEvent event])
    = Some event.
Proof.
  intros Ht. unfold last_move. rewrite pointer_moves_app, filter_app.
  unfold pointer_moves at 2. simpl. rewrite Ht. simpl.
  rewrite filter_cons_True by done. by rewrite filter_nil, last_snoc.
Qed.

Lemma pointer_moves_not_event c :
  (forall event, c <> CallPointerEvent event) ->
  pointer_moves (float:=float) [c] = [].
Proof. intros H. destruct c; try done. by destruct (H event). Qed.

(** The presence map after a sequence of calls on a fresh engine. *)
Lemma run_presences (width height : Z) calls e' :
  run (createEngine width height) calls = Some e' ->
  forall pointer_id,
    presences_ e' !! pointer_id =
      match last_move pointer_id calls with
      | None => None
      | Some event =>
          (fun color =>
             {| p_id := pretty pointer_id; p_color := color;
                p_x := ev_x event; p_y := ev_y event |})
          <$> colorForPointer pointer_id
      end.
Proof.
  revert e'. induction calls as [|c calls IH] using rev_ind; intros e' Hrun pid.
  - simpl in Hrun. simplify_eq.
    destruct (createEngine_fields width height) as (_ & _ & _ & ->).
    by rewrite lookup_empty.
  - apply run_snoc_inv in Hrun as (e1 & r & Hrun & Hc).
    specialize (IH _ Hrun).
    destruct c as [w h|command|event|]; simpl in Hc.
    + simplify_eq. rewrite resize_eq. simpl.
      rewrite last_move_snoc_other; [apply IH|done|by left].
    + simplify_eq. rewrite execute_presences.
      rewrite last_move_snoc_other; [apply IH|done|by left].
    + destruct (pointerEvent e1 event) as [e2|] eqn:He; simplify_eq.
      destruct (decide (ev_type event = "pointerMove")) as [Ht|Ht].
      * rewrite pointerEvent_move in He by done.
        destruct (decide (ev_pointerId event = pid)) as [<-|Hne].
        -- rewrite last_move_snoc_same by done.
           destruct (presences_ e1 !! ev_pointerId event) as [p|] eqn:Hp.
           ++ rewrite (updatePresence_seen _ _ _ _ _ Hp) in He.
              simplify_eq. simpl. rewrite lookup_insert_eq.
              rewrite IH in Hp.
              destruct (last_move (ev_pointerId event) calls); [|done].
              destruct (colorForPointer (ev_pointerId event)); [|done].
              by simplify_eq/=.
           ++ rewrite (updatePresence_new _ _ _ _ Hp) in He.
              destruct (colorForPointer (ev_pointerId event)); [|done].
              simplify_eq/=. by rewrite lookup_insert_eq.
        -- rewrite last_move_snoc_other; cycle 1.
           { intros ev. unfold pointer_moves. simpl. rewrite Ht. simpl.
             by intros [= <-]. }
           { right. exists event. unfold pointer_moves. simpl.
             by rewrite Ht. }
           rewrite <-IH.
           destruct (presences_ e1 !! ev_pointerId event) as [p|] eqn:Hp.
           ++ rewrite (updatePresence_seen _ _ _ _ _ Hp) in He.
              simplify_eq. simpl. by rewrite lookup_insert_ne.
           ++ rewrite (updatePresence_new _ _ _ _ Hp) in He.
              destruct (colorForPointer (ev_pointerId event)); [|done].
              simplify_eq/=. by rewrite lookup_insert_ne.
      * rewrite pointerEvent_other in He by done. simplify_eq.
        rewrite last_move_snoc_other; [apply IH| |left].
        -- unfold pointer_moves. simpl.
           by rewrite (proj2 (String.eqb_neq _ _) Ht).
        -- unfold pointer_moves. simpl.
           by rewrite (proj2 (String.eqb_neq _ _) Ht).
    + simplify_eq. rewrite last_move_snoc_other; [apply IH|done|by left].
Qed.

Lemma presence_entry e (pointer_id : Z) p :
  reachable e ->
  presences_ e !! pointer_id = Some p ->
  p_id p = pretty pointer_id /\ colorForPointer pointer_id = Some (p_color p).
Proof.
  intros (width & height & calls & Hrun) Hp.
  rewrite (run_presences _ _ _ _ Hrun) in Hp.
  destruct (last_move pointer_id calls); [|done].
  destruct (colorForPointer pointer_id); [|done].
  by simplify_eq/=.
Qed.

Lemma presence_ids_NoDup e :
  reachable e -> NoDup (p_id <$> (map_to_list (presences_ e)).*2).
Proof.
  intros Hreach.
  assert (p_id <$> (map_to_list (presences_ e)).*2
          = pretty <$> (map_to_list (presences_ e)).*1) as ->.
  { rewrite <-!list_fmap_compose. apply list_fmap_ext.
    intros i [k p] Hi. simpl.
    apply list_elem_of_lookup_2, elem_of_map_to_list in Hi.
    by destruct (presence_entry _ _ _ Hreach Hi). }
  apply (NoDup_fmap_2 _). apply NoDup_fst_map_to_list.
Qed.

Lemma call_defined e c :
  Forall palette_defined (pointer_moves [c]) -> is_Some (call e c).
Proof.
  intros Hdef. destruct c as [w h|command|event|]; simpl; try done.
  destruct (decide (ev_type event = "pointerMove")) as [Ht|Ht].
  - rewrite pointerEvent_move by done.
    unfold pointer_moves in Hdef. simpl in Hdef. rewrite Ht in Hdef.
    simpl in Hdef. apply Forall_cons in Hdef as [[color Hc] _].
    unfold updatePresence.
    destruct (presences_ e !! ev_pointerId event); [done|].
    by rewrite Hc.
  - by rewrite pointerEvent_other.
Qed.

Lemma run_defined calls e :
  Forall palette_defined (pointer_moves calls) -> is_Some (run e calls).
Proof.
  revert e. induction calls as [|c calls IH]; intros e Hdef; simpl; [done|].
  change (c :: calls) with ([c] ++ calls) in Hdef.
  rewrite pointer_moves_app in Hdef. apply Forall_app in Hdef as [Hc Hdef].
  destruct (call_defined e c Hc) as [[e1 r] ->]. by apply IH.
Qed.

Lemma colorForPointer_lookup (pointer_id : Z) color :
  colorForPointer pointer_id = Some color ->
  palette !! Z.to_nat (normalized pointer_id) = Some color.
Proof.
  unfold colorForPointer, array_at. by destruct (_ <? _)%Z.
Qed.

Lemma run_success_defined (width height : Z) calls e' :
  run (createEngine width height) calls = Some e' ->
  Forall palette_defined (pointer_moves calls).
Proof.
  revert e'. induction calls as [|c calls IH] using rev_ind; intros e' Hrun.
  - constructor.
  - apply run_snoc_inv in Hrun as (e1 & r & Hrun & Hc).
    rewrite pointer_moves_app. apply Forall_app. split; [by eapply IH|].
    destruct c as [w h|command|event|]; try constructor.
    unfold pointer_moves. simpl.
    destruct (String.eqb_spec (ev_type event) "pointerMove") as [Ht|Ht];
      simpl; constructor; [|constructor].
    simpl in Hc.
    destruct (pointerEvent e1 event) as [e2|] eqn:He; simplify_eq.
    rewrite pointerEvent_move in He by done. unfold palette_defined.
    destruct (presences_ e1 !! ev_pointerId event) as [p|] eqn:Hp.
    + assert (reachable e1) as Hreach by (by exists width, height, calls).
      destruct (presence_entry _ _ _ Hreach Hp) as [_ Hcol]. by rewrite Hcol.
    + rewrite updatePresence_new in He by done.
      by destruct (colorForPointer (ev_pointerId event)).
Qed.

Lemma palette_defined_iff (event : Event float) :
  Int32.in_range (ev_pointerId event) ->
  palette_defined event <-> ev_pointerId event <> Int32.INT_MIN.
Proof.
  intros Hr. unfold palette_defined. split.
  - intros [color Hc] Heq. rewrite Heq in Hc. vm_compute in Hc. done.
  - intros Hne. destruct (colorForPointer_defined _ Hr Hne) as (c & -> & _).
    done.
Qed.

(** C6. The first ["pointerMove"] event of an [int] pointer id other than
    [INT_MIN] adds one entry, keyed by that id, whose color is the entry of
    the palette at position [|id| mod 6]; a later event of a pointer id
    replaces the [x] and [y] of its entry and keeps its id and color.  So
    after any sequence of calls on a fresh engine whose pointer ids are
    [int]s other than [INT_MIN], the map holds for each pointer id seen one
    entry, with the palette color of position [|id| mod 6] and the position
    of its last event, and none for the others, and the ids listed in a
    snapshot are pairwise distinct.  At [INT_MIN] the claim does not hold of
    the code: the first event of that pointer id reads the palette out of
    bounds and has no result, and neither has a sequence of calls that
    contains one. *)
Theorem presence_semantics :
  (forall e event,
     ev_type event = "pointerMove" ->
     presences_ e !! ev_pointerId event = None ->
     Int32.in_range (ev_pointerId event) ->
     ev_pointerId event <> Int32.INT_MIN ->
     exists color,
       ["#22d3ee"; "#f97316"; "#a855f7"; "#facc15"; "#34d399"; "#ef4444"]
         !! Z.to_nat (Z.abs (ev_pointerId event) `mod` 6) = Some color /\
       pointerEvent e event =
         Some (with_presences e
                 (<[ev_pointerId event :=
                      {| p_id := pretty (ev_pointerId event);
                         p_color := color;
                         p_x := ev_x event; p_y := ev_y event |}]>
                    (presences_ e)))) /\
  (forall e event p,
     ev_type event = "pointerMove" ->
     presences_ e !! ev_pointerId event = Some p ->
     pointerEvent e event =
       Some (with_presences e
               (<[ev_pointerId event :=
                    {| p_id := p_id p; p_color := p_color p;
                       p_x := ev_x event; p_y := ev_y event |}]>
                  (presences_ e)))) /\
  (forall (width height : Z) calls,
     Forall (fun event => Int32.in_range (ev_pointerId event) /\
                          ev_pointerId event <> Int32.INT_MIN)
       (pointer_moves calls) ->
     exists e',
       run (createEngine width height) calls = Some e' /\
       (forall pointer_id,
          match last_move pointer_id calls with
          | None => presences_ e' !! pointer_id = None
          | Some event =>
              exists color,
                ["#22d3ee"; "#f97316"; "#a855f7"; "#facc15"; "#34d399";
                 "#ef4444"]
                  !! Z.to_nat (Z.abs pointer_id `mod` 6) = Some color /\
                presences_ e' !! pointer_id = Some
                  {| p_id := pretty pointer_id; p_color := color;
                     p_x := ev_x event; p_y := ev_y event |}
          end) /\
       NoDup (p_id <$> (map_to_list (presences_ e')).*2)) /\
  (forall e event,
     ev_type event = "pointerMove" ->
     ev_pointerId event = Int32.INT_MIN ->
     presences_ e !! Int32.INT_MIN = None ->
     pointerEvent e event = None) /\
  (forall (width height : Z) calls,
     Forall (fun event => Int32.in_range (ev_pointerId event))
       (pointer_moves calls) ->
     Int32.INT_MIN ∈ ev_pointerId <$> pointer_moves calls ->
     run (createEngine width height) calls = None).
Proof.
  split; [|split; [|split; [|split]]].
  - intros e event Ht Hp Hr Hne.
    destruct (colorForPointer_defined _ Hr Hne) as (color & Hc & _).
    exists color. split.
    + rewrite <-Hc. symmetry. by apply colorForPointer_residue.
    + rewrite pointerEvent_move by done.
      rewrite updatePresence_new by done. by rewrite Hc.
  - intros e event p Ht Hp. rewrite pointerEvent_move by done.
    by apply updatePresence_seen.
  - intros width height calls Hint.
    assert (Hdef : Forall palette_defined (pointer_moves calls)).
    { eapply Forall_impl; [exact Hint|]. intros event [Hr Hne].
      by apply palette_defined_iff. }
    destruct (run_defined calls (createEngine width height) Hdef)
      as [e' Hrun].
    assert (reachable e') as Hreach by (by exists width, height, calls).
    exists e'. split; [done|]. split; [|by apply presence_ids_NoDup].
    intros pid. rewrite (run_presences width height _ _ Hrun pid).
    destruct (last_move pid calls) as [event|] eqn:Hl; [|done].
    assert (Int32.in_range pid /\ pid <> Int32.INT_MIN) as [Hr Hne].
    { unfold last_move in Hl. apply last_Some_elem_of in Hl.
      apply list_elem_of_filter in Hl as [<- Hin].
      rewrite Forall_forall in Hint. by apply Hint. }
    destruct (colorForPointer_defined _ Hr Hne) as (color & Hc & _).
    exists color. split; [|by rewrite Hc].
    rewrite <-Hc. symmetry. by apply colorForPointer_residue.
  - intros e event Ht Hid Hp. rewrite pointerEvent_move by done.
    rewrite Hid, updatePresence_new by done. reflexivity.
  - intros width height calls Hr Hin.
    destruct (run (createEngine width height) calls) as [e'|] eqn:Hrun;
      [exfalso|done].
    pose proof (run_success_defined _ _ _ _ Hrun) as Hdef.
    apply list_elem_of_fmap in Hin as (event & Heq & Hin).
    rewrite Forall_forall in Hr, Hdef.
    by apply (proj1 (palette_defined_iff event (Hr _ Hin)) (Hdef _ Hin)).
Qed.

(** ** What a snapshot determines *)

Lemma fmap_eq_inv {A B} (f : A -> B) (l1 l2 : list A) :
  (forall x y, f x = f y -> x = y) -> f <$> l1 = f <$> l2 -> l1 = l2.
Proof.
  intros Hinj. revert l2.
  induction l1 as [|x l1 IH]; intros [|y l2] H; simplify_eq/=; [done|].
  f_equal; [by apply Hinj|by apply IH].
Qed.

Lemma cons_eq_inv {A} (x y : A) (l1 l2 : list A) :
  x :: l1 = y :: l2 -> x = y /\ l1 = l2.
Proof. by intros [= -> ->]. Qed.

Lemma point_val_inj (p1 p2 : StrokePoint float) :
  point_val p1 = point_val p2 -> p1 = p2.
Proof. destruct p1, p2. unfold point_val. simpl. by intros [= -> ->]. Qed.

Lemma rectangle_shape_inj (r1 r2 : Rectangle float) :
  rectangle_shape r1 = rectangle_shape r2 -> r1 = r2.
Proof.
  destruct r1, r2. unfold rectangle_shape. simpl. intros H. by simplify_eq.
Qed.

Lemma stroke_shape_inj (s1 s2 : Stroke float) :
  stroke_shape s1 = stroke_shape s2 -> s1 = s2.
Proof.
  unfold stroke_shape. rewrite !stroke_points_eq.
  destruct s1, s2. simpl. intros H. simplify_eq. f_equal.
  eapply fmap_eq_inv; [apply point_val_inj|done].
Qed.

Lemma presence_val_inj (p1 p2 : Presence float) :
  presence_val p1 = presence_val p2 -> p1 = p2.
Proof.
  destruct p1, p2. unfold presence_val. simpl. intros H. by simplify_eq.
Qed.

Lemma shape_kinds_differ (rect : Rectangle float) (stroke : Stroke float) :
  rectangle_shape rect <> stroke_shape stroke.
Proof. unfold rectangle_shape, stroke_shape. simpl. by intros [= _ _]. Qed.

Lemma shapes_inj (rs1 rs2 : list (Rectangle float))
    (ss1 ss2 : list (Stroke float)) :
  (rectangle_shape <$> rs1) ++ (stroke_shape <$> ss1) =
  (rectangle_shape <$> rs2) ++ (stroke_shape <$> ss2) ->
  rs1 = rs2 /\ ss1 = ss2.
Proof.
  revert rs2. induction rs1 as [|r1 rs1 IH]; intros [|r2 rs2] H.
  - split; [done|]. eapply fmap_eq_inv; [apply stroke_shape_inj|done].
  - destruct ss1 as [|s1 ss1]; simplify_eq/=;
      try by edestruct shape_kinds_differ.
  - destruct ss2 as [|s2 ss2]; simplify_eq/=;
      try by edestruct shape_kinds_differ.
  - rewrite !fmap_cons, <-!app_comm_cons in H.
    apply cons_eq_inv in H as [Hr Hrest].
    apply rectangle_shape_inj in Hr as ->.
    destruct (IH _ Hrest) as [-> ->]. done.
Qed.

Lemma tick_inj e1 e2 :
  tick e1 = tick e2 ->
  rectangles_ e1 = rectangles_ e2 /\
  strokes_ e1 = strokes_ e2 /\
  (map_to_list (presences_ e1)).*2 = (map_to_list (presences_ e2)).*2.
Proof.
  unfold tick. rewrite !tick_shapes_eq, !tick_presences_eq. simpl.
  intros H. simplify_eq.
  match goal with Hs : _ ++ _ = _ ++ _ |- _ =>
    apply shapes_inj in Hs as [-> ->] end.
  repeat split. eapply fmap_eq_inv; [apply presence_val_inj|done].
Qed.

(** In reachable states the key of an entry can be read back from its id,
    so the listed presences determine the map. *)
Lemma presences_determined e1 e2 :
  reachable e1 -> reachable e2 ->
  (map_to_list (presences_ e1)).*2 = (map_to_list (presences_ e2)).*2 ->
  presences_ e1 = presences_ e2.
Proof.
  intros H1 H2 Heq. apply map_to_list_inj.
  assert (Hkeys : forall e, reachable e ->
            Forall (fun kp => p_id kp.2 = pretty kp.1)
              (map_to_list (presences_ e))).
  { intros e He. apply Forall_forall. intros [k p] Hin.
    apply elem_of_map_to_list in Hin.
    by destruct (presence_entry _ _ _ He Hin). }
  pose proof (Hkeys _ H1) as F1. pose proof (Hkeys _ H2) as F2.
  revert F1 F2 Heq.
  generalize (map_to_list (presences_ e1)) (map_to_list (presences_ e2)).
  induction l as [|[k1 p1] l IH]; intros [|[k2 p2] l2] F1 F2 Heq;
    simplify_eq/=; [done|].
  apply Forall_cons in F1 as [Hk1 F1]. apply Forall_cons in F2 as [Hk2 F2].
  simpl in *. rewrite Hk1 in Hk2. apply pretty_Z_inj in Hk2 as ->.
  by rewrite (IH l2).
Qed.

(** C7, as the code has it.  [tick] hands back the snapshot of the engine it
    is called on and leaves that engine as it is, so any number of
    consecutive [tick] calls see the same state.  The snapshot is computed
    from the rectangles, the strokes and the presences alone, and determines
    them: two states with equal snapshots have the same rectangles, the same
    strokes with the same points, and the same listed presences (the same
    presence map when both states are reachable). *)
Theorem tick_read_only :
  (forall e, call e CallTick = Some (e, Some (tick e))) /\
  (forall e n, run e (replicate n CallTick) = Some e) /\
  (forall e1 e2,
     rectangles_ e1 = rectangles_ e2 ->
     strokes_ e1 = strokes_ e2 ->
     presences_ e1 = presences_ e2 ->
     tick e1 = tick e2) /\
  (forall e1 e2,
     tick e1 = tick e2 ->
     rectangles_ e1 = rectangles_ e2 /\
     strokes_ e1 = strokes_ e2 /\
     (map_to_list (presences_ e1)).*2 = (map_to_list (presences_ e2)).*2) /\
  (forall e1 e2,
     reachable e1 -> reachable e2 ->
     tick e1 = tick e2 -> presences_ e1 = presences_ e2).
Proof.
  split; [done|]. split; [|split; [|split]].
  - intros e n. by induction n.
  - intros e1 e2 Hr Hs Hp. unfold tick, tick_shapes, tick_presences.
    by rewrite Hr, Hs, Hp.
  - apply tick_inj.
  - intros e1 e2 H1 H2 Ht. apply presences_determined; [done..|].
    by apply tick_inj.
Qed.

(** * Further properties of the engine *)

(** ** Strokes are numbered by insertion *)

Lemma commands_of_app type calls1 calls2 :
  commands_of type (calls1 ++ calls2) =
    commands_of (float:=float) type calls1 ++ commands_of type calls2.
Proof. apply omap_app. Qed.

Lemma call_strokes_length e c e' r :
  call e c = Some (e', r) ->
  length (strokes_ e') =
    length (strokes_ e) + length (commands_of "startStroke" [c]).
Proof.
  intros H. apply call_stroke_ids in H.
  apply (f_equal length) in H.
  by rewrite length_app, !length_fmap in H.
Qed.

Lemma started_by_extends n command (s s' : Stroke float) :
  started_by n command s -> extends s s' -> started_by n command s'.
Proof.
  intros (H1 & H2 & H3 & H4 & H5) (E1 & E2 & E3 & E4 & E5).
  repeat split; try congruence. by etrans.
Qed.

Lemma commands_of_singleton type c command :
  commands_of (float:=float) type [c] !! 0 = Some command ->
  c = CallExecute command /\ c_type command = type.
Proof.
  unfold commands_of. destruct c as [w h|u|event|]; simpl; try done.
  destruct (String.eqb_spec (c_type u) type); simpl; [|done].
  by intros [= ->].
Qed.

Lemma commands_of_singleton_length type c :
  length (commands_of (float:=float) type [c]) <= 1.
Proof.
  unfold commands_of. destruct c as [w h|u|event|]; simpl; try lia.
  destruct (String.eqb (c_type u) type); simpl; lia.
Qed.

Lemma run_strokes (width height : Z) calls e' :
  run (createEngine width height) calls = Some e' ->
  length (strokes_ e') = length (commands_of "startStroke" calls) /\
  forall i command,
    commands_of "startStroke" calls !! i = Some command ->
    exists s, strokes_ e' !! i = Some s /\ started_by (i + 1) command s.
Proof.
  revert e'. induction calls as [|c calls IH] using rev_ind; intros e' Hrun.
  - simpl in Hrun. simplify_eq.
    destruct (createEngine_fields width height) as (_ & -> & _). done.
  - apply run_snoc_inv in Hrun as (e1 & r & Hrun & Hc).
    destruct (IH _ Hrun) as [Hlen Hlook]. clear IH.
    rewrite commands_of_app, length_app.
    split; [rewrite (call_strokes_length _ _ _ _ Hc); lia|].
    intros i command Hi. apply lookup_app_Some in Hi as [Hi|[Hge Hi]].
    + destruct (Hlook _ _ Hi) as (s & Hs & Hst).
      destruct (call_extends _ _ _ _ _ _ Hc Hs) as (s' & Hs' & Hext).
      exists s'. split; [done|]. by eapply started_by_extends.
    + assert (i - length (commands_of "startStroke" calls) = 0) as Hz.
      { apply lookup_lt_Some in Hi.
        pose proof (commands_of_singleton_length "startStroke" c). lia. }
      rewrite Hz in Hi.
      apply commands_of_singleton in Hi as [-> Ht].
      assert (i = length (strokes_ e1)) as -> by lia.
      simpl in Hc. simplify_eq.
      rewrite execute_startStroke by done. simpl. unfold push_back.
      eexists. split; [by apply list_lookup_middle|].
      unfold started_by, makeStroke, makeStrokeName. simpl.
      by repeat split.
Qed.

(** X1. The strokes after a run are those of the [startStroke] commands, in call
    order: the one at position [i] has the id, color and size of the
    [(i+1)]-th such command and the name ["Trace "(i+1)], and its points
    begin with the point of that command.  Stroke names are pairwise
    distinct, whatever the ids. *)
Theorem stroke_numbering (width height : Z) calls e' :
  run (createEngine width height) calls = Some e' ->
  length (strokes_ e') = length (commands_of "startStroke" calls) /\
  (forall i command,
     commands_of "startStroke" calls !! i = Some command ->
     exists s,
       strokes_ e' !! i = Some s /\
       s_id s = c_id command /\
       s_name s = "Trace " +:+ pretty (i + 1) /\
       s_color s = c_color command /\
       s_size s = c_size command /\
       exists points, s_points s = command_point command :: points) /\
  NoDup (s_name <$> strokes_ e').
Proof.
  intros Hrun. destruct (run_strokes _ _ _ _ Hrun) as [Hlen Hlook].
  split; [done|]. split.
  - intros i command Hi.
    destruct (Hlook _ _ Hi) as (s & Hs & H1 & H2 & H3 & H4 & [points H5]).
    exists s. repeat split; try done. exists points. by rewrite H5.
  - apply NoDup_alt. intros i j name.
    rewrite !list_lookup_fmap. intros Hi Hj.
    destruct (strokes_ e' !! i) as [si|] eqn:Hsi; [|done].
    destruct (strokes_ e' !! j) as [sj|] eqn:Hsj; [|done].
    assert (s_name si = s_name sj) as Heq by (simpl in Hi, Hj; congruence).
    clear Hi Hj.
    pose proof (lookup_lt_Some _ _ _ Hsi) as Hli.
    pose proof (lookup_lt_Some _ _ _ Hsj) as Hlj.
    rewrite Hlen in Hli, Hlj.
    apply lookup_lt_is_Some in Hli as [ci Hci].
    apply lookup_lt_is_Some in Hlj as [cj Hcj].
    destruct (Hlook _ _ Hci) as (s1 & Hs1 & _ & Hn1 & _).
    destruct (Hlook _ _ Hcj) as (s2 & Hs2 & _ & Hn2 & _).
    rewrite Hsi in Hs1. rewrite Hsj in Hs2. simplify_eq.
    rewrite Hn1, Hn2 in Heq. simpl in Heq.
    injection Heq as Heq. apply pretty_nat_inj in Heq. lia.
Qed.

(** ** Strokes out of the index are frozen *)

Lemma findStroke_Some e id index :
  findStroke e id = Some index ->
  strokeIndex_ e !! id = Some index /\ index < length (strokes_ e).
Proof.
  unfold findStroke. destruct (strokeIndex_ e !! id) as [j|]; [|done].
  destruct (Nat.leb_spec (length (strokes_ e)) j); [done|].
  intros [= ->]. split; [done|lia].
Qed.

Lemma execute_unindexed e command k :
  k < length (strokes_ e) -> unindexed e k ->
  unindexed (execute e command) k /\
  strokes_ (execute e command) !! k = strokes_ e !! k.
Proof.
  intros Hk Hun.
  destruct (execute_cases e command) as [H|[H|[H|[H|(_ & _ & H)]]]].
  - rewrite execute_createRectangle by done. by split.
  - rewrite execute_startStroke by done. simpl. unfold push_back. split.
    + intros id. simpl.
      destruct (decide (c_id command = id)) as [<-|Hne].
      * rewrite lookup_insert_eq. intros [= ?]. lia.
      * rewrite lookup_insert_ne by done. apply Hun.
    + by apply lookup_app_l.
  - rewrite execute_updateStroke by done.
    destruct (findStroke e (c_id command)) as [index|] eqn:Hf; [|by split].
    apply findStroke_Some in Hf as [Hf _]. simpl. split; [exact Hun|].
    apply list_lookup_alter_ne. intros ->. by apply (Hun (c_id command)).
  - rewrite execute_finishStroke by done. simpl. split; [|done].
    intros id Hid. simpl in Hid.
    apply lookup_delete_Some in Hid as [_ Hid]. by apply (Hun id).
  - rewrite H. by split.
Qed.

Lemma call_unindexed e c e' r k :
  call e c = Some (e', r) ->
  k < length (strokes_ e) -> unindexed e k ->
  unindexed e' k /\ strokes_ e' !! k = strokes_ e !! k.
Proof.
  destruct c as [width height|command|event|]; simpl; intros H Hk Hun.
  - simplify_eq. rewrite resize_eq. by split.
  - simplify_eq. by apply execute_unindexed.
  - destruct (pointerEvent e event) as [e1|] eqn:He; simplify_eq.
    rewrite (pointerEvent_frame _ _ _ He). by split.
  - simplify_eq. by split.
Qed.

Lemma run_unindexed calls e e' k :
  run e calls = Some e' ->
  k < length (strokes_ e) -> unindexed e k ->
  unindexed e' k /\ strokes_ e' !! k = strokes_ e !! k.
Proof.
  revert e. induction calls as [|c calls IH]; intros e Hrun Hk Hun;
    simpl in Hrun.
  - simplify_eq. by split.
  - destruct (call e c) as [[e1 r]|] eqn:Hc; [|done].
    destruct (call_unindexed _ _ _ _ _ Hc Hk Hun) as [Hun1 Hs1].
    assert (k < length (strokes_ e1)) as Hk1.
    { apply lookup_lt_is_Some. rewrite Hs1. by apply lookup_lt_is_Some. }
    destruct (IH _ Hrun Hk1 Hun1) as [Hun' Hs']. split; [done|congruence].
Qed.

(** X2. Once an active stroke is finished, or its id is started again, no later
    call changes it: whatever calls follow, the stroke at its position stays
    as it was, points included, and never gets back into the index. *)
Theorem finished_stroke_frozen e command k calls e' :
  reachable e ->
  strokeIndex_ e !! c_id command = Some k ->
  c_type command = "finishStroke" \/ c_type command = "startStroke" ->
  run (execute e command) calls = Some e' ->
  strokes_ e' !! k = strokes_ e !! k /\
  (forall id, strokeIndex_ e' !! id <> Some k).
Proof.
  intros Hreach Hk Ht Hrun.
  pose proof (index_consistent_reachable _ Hreach) as Hinv.
  destruct (Hinv _ _ Hk) as (s & Hs & Hid).
  pose proof (lookup_lt_Some _ _ _ Hs) as Hlt.
  assert (unindexed (execute e command) k /\
          strokes_ (execute e command) !! k = strokes_ e !! k /\
          k < length (strokes_ (execute e command))) as (Hun & Heq & Hlt').
  { destruct Ht as [Ht|Ht].
    - rewrite execute_finishStroke by done. simpl.
      split; [|by split]. intros id Hd. simpl in Hd.
      apply lookup_delete_Some in Hd as [Hne Hd].
      destruct (Hinv _ _ Hd) as (s' & Hs' & Hid'). congruence.
    - rewrite execute_startStroke by done. simpl. unfold push_back.
      split; [|split].
      + intros id. simpl.
        destruct (decide (c_id command = id)) as [<-|Hne].
        * rewrite lookup_insert_eq. intros [= ?]. lia.
        * rewrite lookup_insert_ne by done. intros Hd.
          destruct (Hinv _ _ Hd) as (s' & Hs' & Hid'). congruence.
      + by apply lookup_app_l.
      + rewrite length_app. lia. }
  destruct (run_unindexed _ _ _ _ Hrun Hlt' Hun) as [Hun' Hs'].
  split; [congruence|exact Hun'].
Qed.

(** ** The index designates the latest stroke of an id *)

Lemma index_latest_execute e command :
  index_latest e -> index_latest (execute e command).
Proof.
  intros Hinv id k.
  destruct (execute_cases e command) as [H|[H|[H|[H|(_ & _ & H)]]]].
  - rewrite execute_createRectangle by done. simpl. apply Hinv.
  - rewrite execute_startStroke by done. simpl. unfold push_back.
    destruct (decide (c_id command = id)) as [<-|Hne].
    + rewrite lookup_insert_eq. intros [= <-] j s Hj Hs.
      apply lookup_lt_Some in Hs. rewrite length_app in Hs. simpl in Hs. lia.
    + rewrite lookup_insert_ne by done. intros Hk j s Hj Hs.
      apply lookup_app_Some in Hs as [Hs|[_ Hs]]; [by eapply Hinv|].
      apply list_lookup_singleton_Some in Hs as [_ <-]. done.
  - rewrite execute_updateStroke by done.
    destruct (findStroke e (c_id command)) as [index|]; [|apply Hinv].
    simpl. intros Hk j s Hj Hs.
    rewrite list_lookup_alter in Hs. case_decide; [subst|by eapply Hinv].
    destruct (strokes_ e !! j) as [s0|] eqn:Hs0; simplify_eq/=.
    by eapply Hinv.
  - rewrite execute_finishStroke by done. simpl.
    intros Hk. apply lookup_delete_Some in Hk as [_ Hk]. by apply Hinv.
  - rewrite H. apply Hinv.
Qed.

Lemma index_latest_reachable e : reachable e -> index_latest e.
Proof.
  apply reachable_invariant.
  - intros width height id k.
    destruct (createEngine_fields width height) as (_ & _ & -> & _).
    by rewrite lookup_empty.
  - intros e1 c e2 r Hinv Hc.
    destruct c as [width height|command|event|]; simpl in Hc.
    + simplify_eq. rewrite resize_eq. exact Hinv.
    + simplify_eq. by apply index_latest_execute.
    + destruct (pointerEvent e1 event) as [e3|] eqn:He; simplify_eq.
      rewrite (pointerEvent_frame _ _ _ He). exact Hinv.
    + by simplify_eq.
Qed.

(** X3. When several strokes carry the same id, the active-stroke index
    designates the last one of them: [updateStroke] reaches the stroke that
    was started most recently under that id, never an older one. *)
Theorem index_designates_latest e id k :
  reachable e ->
  strokeIndex_ e !! id = Some k ->
  findStroke e id = Some k /\
  (exists s, strokes_ e !! k = Some s /\ s_id s = id) /\
  (forall j s, k < j -> strokes_ e !! j = Some s -> s_id s <> id).
Proof.
  intros Hreach Hk.
  pose proof (index_consistent_reachable _ Hreach) as Hcons.
  split; [by apply findStroke_consistent|]. split; [by apply Hcons|].
  by apply (index_latest_reachable _ Hreach).
Qed.

(** ** [findStroke] after the commands *)

Lemma execute_keeps_inactive e command id :
  strokeIndex_ e !! id = None ->
  keeps_active id command ->
  strokeIndex_ (execute e command) !! id = None.
Proof.
  intros Hid Hkeep.
  destruct (execute_cases e command) as [H|[H|[H|[H|(_ & _ & H)]]]].
  - by rewrite execute_createRectangle.
  - rewrite execute_startStroke by done. simpl.
    assert (c_id command <> id) by (intros ?; apply Hkeep; auto).
    by rewrite lookup_insert_ne.
  - rewrite execute_updateStroke by done.
    by destruct (findStroke e (c_id command)).
  - rewrite execute_finishStroke by done. simpl.
    apply lookup_delete_None. by right.
  - by rewrite H.
Qed.

(** X4. [startStroke] makes its id findable, at the position of the stroke it
    appends; [finishStroke] makes its id unfindable; in a reachable state no
    other command changes what [findStroke] returns for an id. *)
Theorem findStroke_after_execute e :
  (forall command,
     c_type command = "startStroke" ->
     findStroke (execute e command) (c_id command)
       = Some (length (strokes_ e))) /\
  (forall command,
     c_type command = "finishStroke" ->
     findStroke (execute e command) (c_id command) = None) /\
  (reachable e ->
   forall command id,
     keeps_active id command ->
     findStroke (execute e command) id = findStroke e id).
Proof.
  split; [|split].
  - intros command Ht. rewrite execute_startStroke by done.
    unfold findStroke, push_back. simpl. rewrite lookup_insert_eq.
    rewrite length_app. simpl.
    destruct (Nat.leb_spec (length (strokes_ e) + 1) (length (strokes_ e)));
      [lia|done].
  - intros command Ht. rewrite execute_finishStroke by done.
    apply findStroke_inactive. simpl. apply lookup_delete_eq.
  - intros Hreach command id Hkeep.
    pose proof (index_consistent_reachable _ Hreach) as Hinv.
    destruct (strokeIndex_ e !! id) as [k|] eqn:Hk.
    + destruct (Hinv _ _ Hk) as (s & Hs & _).
      destruct (execute_keeps_active e command id k s Hinv Hk Hs Hkeep)
        as [Hk' Hs'].
      destruct (findStroke_consistent _ _ _ Hinv Hk) as [_ ->].
      apply (findStroke_consistent (execute e command));
        [by apply index_consistent_execute|done].
    + rewrite (findStroke_inactive e) by done.
      apply findStroke_inactive. by apply execute_keeps_inactive.
Qed.

(** ** The presences of a snapshot *)

(** X5. The presences of a snapshot are one object per entry of the presence
    map, in the order the map is iterated, each with the id, color and
    position of the entry; there are as many as the map has entries. *)
Theorem tick_presences_order e :
  tick e =
    Obj [("document",
          Obj [("id", Str "doc-native");
               ("name", Str "Composition native");
               ("shapes", tick_shapes e)]);
         ("presences",
          Arr ((fun entry =>
                  Obj [("id", Str (p_id entry.2));
                       ("color", Str (p_color entry.2));
                       ("x", Num (p_x entry.2));
                       ("y", Num (p_y entry.2))])
                 <$> map_to_list (presences_ e)))] /\
  length (map_to_list (presences_ e)) = size (presences_ e).
Proof.
  split; [|by rewrite length_map_to_list].
  unfold tick. rewrite tick_presences_eq, <-list_fmap_compose. reflexivity.
Qed.

(** ** The canvas dimensions *)

Lemma execute_dimensions e command :
  width_ (execute e command) = width_ e /\
  height_ (execute e command) = height_ e.
Proof.
  unfold execute. repeat case_match; by split.
Qed.

Lemma resizes_app calls1 calls2 :
  resizes (calls1 ++ calls2) = resizes (float:=float) calls1 ++ resizes calls2.
Proof. apply omap_app. Qed.

(** X6. After any sequence of calls the stored dimensions are those of the last
    [resize] (those given to [createEngine] if there was none), each clamped
    at 0: they are never negative, and commands, events and [tick] do not
    change them. *)
Theorem dimensions_last_resize (width height : Z) calls e' :
  run (createEngine width height) calls = Some e' ->
  width_ e' = Z.max (default (width, height) (last (resizes calls))).1 0 /\
  height_ e' = Z.max (default (width, height) (last (resizes calls))).2 0 /\
  (0 <= width_ e')%Z /\ (0 <= height_ e')%Z.
Proof.
  intros Hrun.
  cut (width_ e' = Z.max (default (width, height) (last (resizes calls))).1 0
       /\ height_ e' =
            Z.max (default (width, height) (last (resizes calls))).2 0).
  { intros [-> ->]. repeat split; lia. }
  revert e' Hrun.
  induction calls as [|c calls IH] using rev_ind; intros e' Hrun.
  - simpl in Hrun. simplify_eq. unfold createEngine.
    rewrite resize_eq. by split.
  - apply run_snoc_inv in Hrun as (e1 & r & Hrun & Hc).
    destruct (IH _ Hrun) as [Hw Hh]. rewrite resizes_app.
    destruct c as [w h|command|event|]; simpl in Hc.
    + simplify_eq. rewrite resize_eq. simpl. by rewrite last_snoc.
    + simplify_eq. destruct (execute_dimensions e1 command) as [-> ->].
      simpl. by rewrite app_nil_r.
    + destruct (pointerEvent e1 event) as [e2|] eqn:He; simplify_eq.
      rewrite (pointerEvent_frame _ _ _ He). simpl. by rewrite app_nil_r.
    + simplify_eq. simpl. by rewrite app_nil_r.
Qed.

(** ** Commands and events act on separate parts *)

(** X7. A command never touches the presences or the canvas dimensions, never
    removes or changes a rectangle, and never removes a stroke. *)
Theorem execute_frame e command :
  presences_ (execute e command) = presences_ e /\
  width_ (execute e command) = width_ e /\
  height_ (execute e command) = height_ e /\
  rectangles_ e `prefix_of` rectangles_ (execute e command) /\
  length (strokes_ e) <= length (strokes_ (execute e command)).
Proof.
  destruct (execute_dimensions e command) as [Hw Hh].
  split; [apply execute_presences|]. split; [done|]. split; [done|]. split.
  - rewrite execute_rectangles. case_match; [by apply prefix_app_r|done].
  - pose proof (execute_stroke_ids e command) as H.
    apply (f_equal length) in H.
    rewrite length_app, !length_fmap in H. lia.
Qed.

Lemma pointerEvent_effect e event e' :
  pointerEvent e event = Some e' ->
  width_ e' = width_ e /\ height_ e' = height_ e /\
  rectangles_ e' = rectangles_ e /\ strokes_ e' = strokes_ e /\
  strokeIndex_ e' = strokeIndex_ e /\
  (forall pointer_id,
     pointer_id <> ev_pointerId event ->
     presences_ e' !! pointer_id = presences_ e !! pointer_id) /\
  (forall pointer_id p,
     presences_ e !! pointer_id = Some p ->
     exists p', presences_ e' !! pointer_id = Some p' /\
                p_id p' = p_id p /\ p_color p' = p_color p).
Proof.
  intros He. pose proof (pointerEvent_frame _ _ _ He) as Hfr.
  rewrite Hfr at 1 2 3 4 5. simpl. do 5 (split; [done|]).
  destruct (decide (ev_type event = "pointerMove")) as [Ht|Ht];
    [|rewrite pointerEvent_other in He by done; simplify_eq; eauto].
  rewrite pointerEvent_move in He by done.
  unfold updatePresence in He.
  destruct (presences_ e !! ev_pointerId event) as [p0|] eqn:Hp0.
  - simplify_eq. simpl. split.
    + intros pid Hne. by rewrite lookup_insert_ne.
    + intros pid p Hp. destruct (decide (ev_pointerId event = pid)) as [<-|Hne].
      * rewrite lookup_insert_eq. simplify_eq. eauto.
      * rewrite lookup_insert_ne by done. eauto.
  - destruct (colorForPointer (ev_pointerId event)); simplify_eq. simpl. split.
    + intros pid Hne. by rewrite lookup_insert_ne.
    + intros pid p Hp. rewrite lookup_insert_ne by congruence. eauto.
Qed.

(** X8. An event that has a result changes nothing but the presences, and among
    them only the entry of its own pointer id; an entry that was there
    keeps its id and its color. *)
Theorem pointerEvent_frame_presences e event e' :
  pointerEvent e event = Some e' ->
  width_ e' = width_ e /\ height_ e' = height_ e /\
  rectangles_ e' = rectangles_ e /\ strokes_ e' = strokes_ e /\
  strokeIndex_ e' = strokeIndex_ e /\
  (forall pointer_id,
     pointer_id <> ev_pointerId event ->
     presences_ e' !! pointer_id = presences_ e !! pointer_id) /\
  (forall pointer_id p,
     presences_ e !! pointer_id = Some p ->
     exists p', presences_ e' !! pointer_id = Some p' /\
                p_id p' = p_id p /\ p_color p' = p_color p).
Proof. apply pointerEvent_effect. Qed.

Lemma call_keeps e c e' r :
  call e c = Some (e', r) ->
  rectangles_ e `prefix_of` rectangles_ e' /\
  (forall pointer_id p,
     presences_ e !! pointer_id = Some p ->
     exists p', presences_ e' !! pointer_id = Some p' /\
                p_id p' = p_id p /\ p_color p' = p_color p).
Proof.
  destruct c as [width height|command|event|]; simpl; intros H.
  - simplify_eq. rewrite resize_eq. simpl. eauto.
  - simplify_eq. rewrite execute_presences, execute_rectangles.
    split; [case_match; [by apply prefix_app_r|done]|eauto].
  - destruct (pointerEvent e event) as [e1|] eqn:He; simplify_eq.
    destruct (pointerEvent_effect _ _ _ He) as (_ & _ & -> & _ & _ & _ & Hp).
    eauto.
  - simplify_eq. eauto.
Qed.

Lemma extends_trans (s1 s2 s3 : Stroke float) :
  extends s1 s2 -> extends s2 s3 -> extends s1 s3.
Proof.
  intros (H1 & H2 & H3 & H4 & H5) (E1 & E2 & E3 & E4 & E5).
  repeat split; try congruence. by etrans.
Qed.

(** X9. Nothing is ever removed: from any state and through any sequence of
    calls, the rectangles stay as they are at the front of the collection,
    every stroke stays at its position with at most more points at the end,
    and every presence stays in the map with its id and color. *)
Theorem nothing_is_removed calls e e' :
  run e calls = Some e' ->
  rectangles_ e `prefix_of` rectangles_ e' /\
  (forall k s,
     strokes_ e !! k = Some s ->
     exists s', strokes_ e' !! k = Some s' /\ extends s s') /\
  (forall pointer_id p,
     presences_ e !! pointer_id = Some p ->
     exists p', presences_ e' !! pointer_id = Some p' /\
                p_id p' = p_id p /\ p_color p' = p_color p).
Proof.
  revert e. induction calls as [|c calls IH]; intros e Hrun; simpl in Hrun.
  - simplify_eq. split; [done|]. split; eauto using extends_refl.
  - destruct (call e c) as [[e1 r]|] eqn:Hc; [|done].
    destruct (IH _ Hrun) as (Hr & Hs & Hp).
    destruct (call_keeps _ _ _ _ Hc) as [Hr1 Hp1].
    split; [by etrans|]. split.
    + intros k s Hk.
      destruct (call_extends _ _ _ _ _ _ Hc Hk) as (s1 & Hk1 & Hext1).
      destruct (Hs _ _ Hk1) as (s' & Hk' & Hext').
      exists s'. split; [done|]. by eapply extends_trans.
    + intros pid p Hpid.
      destruct (Hp1 _ _ Hpid) as (p1 & Hpid1 & Hi1 & Hc1).
      destruct (Hp _ _ Hpid1) as (p' & Hpid' & Hi' & Hc').
      exists p'. split; [done|]. split; congruence.
Qed.

(** ** When a sequence of calls has a result *)

(** X10. A sequence of calls on a fresh engine runs to the end exactly when the
    palette read is defined for the pointer id of each of its
    ["pointerMove"] events; the pointer ids being [int]s, exactly when none
    of them is [INT_MIN]. *)
Theorem run_succeeds_iff (width height : Z) calls :
  (is_Some (run (createEngine width height) calls) <->
   Forall palette_defined (pointer_moves calls)) /\
  (Forall (fun event => Int32.in_range (ev_pointerId event))
     (pointer_moves calls) ->
   (is_Some (run (createEngine width height) calls) <->
    Int32.INT_MIN ∉ ev_pointerId <$> pointer_moves calls)).
Proof.
  assert (Hiff : is_Some (run (createEngine width height) calls) <->
                 Forall palette_defined (pointer_moves calls)).
  { split; [intros [e' He']; by eapply run_success_defined|].
    apply run_defined. }
  split; [exact Hiff|]. intros Hrange. rewrite Hiff.
  rewrite !Forall_forall in *. split.
  - intros Hdef Hin. apply list_elem_of_fmap in Hin as (event & Heq & Hin).
    by apply (proj1 (palette_defined_iff event (Hrange _ Hin)) (Hdef _ Hin)).
  - intros Hnot event Hin. apply palette_defined_iff; [by apply Hrange|].
    intros Heq. apply Hnot. rewrite <-Heq. by apply list_elem_of_fmap_2.
Qed.

(** ** Who has a presence *)

Lemma last_move_is_Some (pointer_id : Z) calls :
  is_Some (last_move pointer_id calls) <->
  pointer_id ∈ ev_pointerId <$> pointer_moves calls.
Proof.
  unfold last_move. rewrite last_is_Some. split.
  - intros Hne.
    destruct (filter _ (pointer_moves calls)) as [|event l] eqn:Hf; [done|].
    assert (event ∈ filter (fun ev => ev_pointerId ev = pointer_id)
                      (pointer_moves calls)) as Hin
      by (rewrite Hf; by left).
    apply list_elem_of_filter in Hin as [<- Hin].
    by apply list_elem_of_fmap_2.
  - intros Hin Hnil. apply list_elem_of_fmap in Hin as (event & -> & Hin).
    assert (event ∈ filter (fun ev => ev_pointerId ev = ev_pointerId event)
                      (pointer_moves calls)) as Hin'
      by (by apply list_elem_of_filter).
    rewrite Hnil in Hin'. by apply elem_of_nil in Hin'.
Qed.

(** X11. After a sequence of calls on a fresh engine, the pointers that have a
    presence are exactly those that sent a ["pointerMove"] event, and a
    snapshot lists as many presences as there are distinct such pointer
    ids. *)
Theorem presences_domain (width height : Z) calls e' :
  run (createEngine width height) calls = Some e' ->
  (forall pointer_id,
     is_Some (presences_ e' !! pointer_id) <->
     pointer_id ∈ ev_pointerId <$> pointer_moves calls) /\
  length (map_to_list (presences_ e')) =
    length (remove_dups (ev_pointerId <$> pointer_moves calls)).
Proof.
  intros Hrun.
  assert (Hdom : forall pointer_id,
     is_Some (presences_ e' !! pointer_id) <->
     pointer_id ∈ ev_pointerId <$> pointer_moves calls).
  { intros pid. rewrite <-last_move_is_Some.
    rewrite (run_presences _ _ _ _ Hrun pid).
    destruct (last_move pid calls) as [event|] eqn:Hl;
      [|split; intros [? ?]; done].
    split; [by eauto|]. intros _.
    assert (pid ∈ ev_pointerId <$> pointer_moves calls) as Hin
      by (apply last_move_is_Some; by rewrite Hl).
    apply list_elem_of_fmap in Hin as (ev & -> & Hin).
    pose proof (run_success_defined _ _ _ _ Hrun) as Hdef.
    rewrite Forall_forall in Hdef. destruct (Hdef _ Hin) as [color ->]. done. }
  split; [exact Hdom|].
  rewrite <-(length_fmap fst). apply Permutation_length.
  apply NoDup_Permutation;
    [apply NoDup_fst_map_to_list|apply NoDup_remove_dups|].
  intros pid. rewrite elem_of_remove_dups, <-Hdom. split.
  - intros Hin. apply list_elem_of_fmap in Hin as ([k p] & -> & Hin).
    apply elem_of_map_to_list in Hin. by eauto.
  - intros [p Hp]. apply list_elem_of_fmap. exists (pid, p).
    split; [done|]. by apply elem_of_map_to_list.
Qed.

(** ** Which pointers share a color *)

(** X12. The color of an [int] pointer id other than [INT_MIN] is the entry
    of the palette at position [|id| mod 6].  Two such pointer ids get the
    same color exactly when their absolute values are congruent modulo 6;
    so [id] and [-id] share a color, and a non-negative [id] shares its
    color with [id + 6]. *)
Theorem colorForPointer_same_color (a b : Z) :
  Int32.in_range a -> a <> Int32.INT_MIN ->
  Int32.in_range b -> b <> Int32.INT_MIN ->
  colorForPointer a =
    ["#22d3ee"; "#f97316"; "#a855f7"; "#facc15"; "#34d399"; "#ef4444"]
      !! Z.to_nat (Z.abs a `mod` 6) /\
  (colorForPointer a = colorForPointer b <->
   (Z.abs a `mod` 6 = Z.abs b `mod` 6)%Z) /\
  colorForPointer (- a) = colorForPointer a /\
  ((0 <= a)%Z -> Int32.in_range (a + 6) ->
   colorForPointer (a + 6) = colorForPointer a).
Proof.
  intros Ha Hna Hb Hnb.
  assert (Hiff : forall x y,
            Int32.in_range x -> x <> Int32.INT_MIN ->
            Int32.in_range y -> y <> Int32.INT_MIN ->
            (Z.abs x `mod` 6 = Z.abs y `mod` 6)%Z ->
            colorForPointer x = colorForPointer y).
  { intros x y Hx Hnx Hy Hny Heq.
    rewrite !colorForPointer_residue by done. by rewrite Heq. }
  split; [by apply colorForPointer_residue|]. split; [|split].
  - split; [|by apply Hiff].
    rewrite !colorForPointer_residue by done.
    pose proof (Z.mod_pos_bound (Z.abs a) 6 ltac:(lia)) as Hra.
    pose proof (Z.mod_pos_bound (Z.abs b) 6 ltac:(lia)) as Hrb.
    intros Heq.
    destruct (palette !! Z.to_nat (Z.abs a `mod` 6)) as [color|] eqn:Hl.
    + symmetry in Heq.
      pose proof (NoDup_lookup _ _ _ _ palette_NoDup Hl Heq). lia.
    + apply lookup_ge_None in Hl. simpl in Hl. lia.
  - unfold Int32.in_range, Int32.INT_MIN, Int32.INT_MAX in *.
    apply Hiff; unfold Int32.in_range, Int32.INT_MIN, Int32.INT_MAX;
      try lia.
    by rewrite Z.abs_opp.
  - intros Hpos Hr6.
    unfold Int32.in_range, Int32.INT_MIN, Int32.INT_MAX in *.
    apply Hiff; unfold Int32.in_range, Int32.INT_MIN, Int32.INT_MAX;
      try lia.
    rewrite !Z.abs_eq by lia.
    replace (a + 6)%Z with (a + 1 * 6)%Z by lia. by rewrite Z.mod_add.
Qed.

(** ** Which ids are active *)

Lemma executed_app calls1 calls2 :
  executed (calls1 ++ calls2) =
    executed (float:=float) calls1 ++ executed calls2.
Proof. apply omap_app. Qed.

Lemma lifecycle_snoc_other id calls c :
  (forall command, c = CallExecute command -> keeps_active id command) ->
  lifecycle id (calls ++ [c]) = lifecycle id calls.
Proof.
  intros Hc. unfold lifecycle. rewrite executed_app, filter_app.
  destruct c as [w h|command|event|]; simpl; try by rewrite app_nil_r.
  rewrite filter_cons_False by (by apply Hc). by rewrite app_nil_r.
Qed.

Lemma lifecycle_snoc_same calls command :
  c_type command = "startStroke" \/ c_type command = "finishStroke" ->
  lifecycle (c_id command) (calls ++ [CallExecute command]) =
    lifecycle (c_id command) calls ++ [command].
Proof.
  intros Ht. unfold lifecycle. rewrite executed_app, filter_app. simpl.
  by rewrite filter_cons_True by done.
Qed.

(** X13. After a sequence of calls on a fresh engine, an id is in the
    active-stroke index exactly when the last [startStroke] or
    [finishStroke] command that carried it is a [startStroke]. *)
Theorem active_iff_last_start (width height : Z) calls e' id :
  run (createEngine width height) calls = Some e' ->
  (is_Some (strokeIndex_ e' !! id) <->
   exists command,
     last (lifecycle id calls) = Some command /\
     c_type command = "startStroke").
Proof.
  revert e'. induction calls as [|c calls IH] using rev_ind; intros e' Hrun.
  - simpl in Hrun. simplify_eq.
    destruct (createEngine_fields width height) as (_ & _ & -> & _).
    rewrite lookup_empty. split; [by intros [? ?]|by intros (? & ? & _)].
  - apply run_snoc_inv in Hrun as (e1 & r & Hrun & Hc).
    specialize (IH _ Hrun).
    assert (reachable e1) as Hreach by (by exists width, height, calls).
    pose proof (index_consistent_reachable _ Hreach) as Hinv.
    assert (Hsame : strokeIndex_ e' = strokeIndex_ e1 ->
              (forall command, c = CallExecute command ->
                               keeps_active id command) ->
              is_Some (strokeIndex_ e' !! id) <->
              exists command,
                last (lifecycle id (calls ++ [c])) = Some command /\
                c_type command = "startStroke").
    { intros -> Hk. by rewrite lifecycle_snoc_other. }
    destruct c as [w h|command|event|]; simpl in Hc.
    + simplify_eq. apply Hsame; [by rewrite resize_eq|done].
    + simplify_eq.
      destruct (decide (c_id command = id /\
                        (c_type command = "startStroke" \/
                         c_type command = "finishStroke")))
        as [[<- Ht]|Hkeep].
      * rewrite lifecycle_snoc_same, last_snoc by done.
        destruct Ht as [Ht|Ht].
        -- rewrite execute_startStroke by done. simpl.
           rewrite lookup_insert_eq. split; [by eauto|by eauto].
        -- rewrite execute_finishStroke by done. simpl.
           rewrite lookup_delete_eq. split; [by intros [? ?]|].
           intros (u & [= <-] & Hu). congruence.
      * rewrite lifecycle_snoc_other by (by intros u [= <-]).
        rewrite <-IH.
        destruct (strokeIndex_ e1 !! id) as [k|] eqn:Hk.
        -- destruct (Hinv _ _ Hk) as (s & Hs & _).
           destruct (execute_keeps_active e1 command id k s Hinv Hk Hs Hkeep)
             as [-> _]. done.
        -- by rewrite (execute_keeps_inactive e1 command id Hk Hkeep).
    + destruct (pointerEvent e1 event) as [e2|] eqn:He; simplify_eq.
      apply Hsame; [by rewrite (pointerEvent_frame _ _ _ He)|done].
    + simplify_eq. by apply Hsame.
Qed.

End Theory.

(** * The properties on concrete sessions *)

Lemma engine0_reachable : reachable engine0.
Proof. exists 800%Z, 600%Z, []. reflexivity. Defined.

Lemma after_reachable (calls : list (Call PrimFloat.float)) :
  run engine0 calls = Some (after calls) -> reachable (after calls).
Proof. intros H. exists 800%Z, 600%Z, calls. exact H. Defined.

(** Two [startStroke] commands with the id ["a"] leave two strokes with that
    id in the collection, whether or not the first was finished in between. *)
Lemma duplicate_stroke_ids :
  (fun e => s_id <$> strokes_ e) <$>
    run engine0 [CallExecute (start_cmd "a" 1%float 2%float);
                 CallExecute (start_cmd "a" 3%float 4%float)]
    = Some ["a"; "a"] /\
  (fun e => s_id <$> strokes_ e) <$>
    run engine0 [CallExecute (start_cmd "a" 1%float 2%float);
                 CallExecute (finish_cmd "a");
                 CallExecute (start_cmd "a" 3%float 4%float)]
    = Some ["a"; "a"] /\
  ~ NoDup ["a"; "a"].
Proof.
  split; [vm_compute; reflexivity|]. split; [vm_compute; reflexivity|].
  intros H. apply NoDup_cons in H as [Hin _]. apply Hin. by left.
Qed.

Lemma ids_unique_witness :
  run (createEngine 800 600) session = Some (after session) /\
  NoDup (r_id <$> rectangles_ (after session)) /\
  s_id <$> strokes_ (after session) = ["a"].
Proof.
  assert (H : run (createEngine 800 600) session = Some (after session))
    by (vm_compute; reflexivity).
  destruct (proj2 (@ids_unique PrimFloat.float)
              800%Z 600%Z session (after session) H) as (Hr & Hs & _).
  split; [exact H|]. split; [exact Hr|]. rewrite Hs. reflexivity.
Defined.

Lemma stroke_points_append_only_witness :
  reachable engine0 /\
  c_type (start_cmd "a" 1%float 2%float) = "startStroke" /\
  exists s,
    strokes_ (execute_all (execute engine0 (start_cmd "a" 1%float 2%float))
                [update_cmd "a" 3%float 4%float;
                 update_cmd "a" 5%float 6%float]) !! 0 = Some s /\
    s_points s = [{| pt_x := 1%float; pt_y := 2%float |};
                  {| pt_x := 3%float; pt_y := 4%float |};
                  {| pt_x := 5%float; pt_y := 6%float |}] /\
    length (s_points s) = 3.
Proof.
  split; [exact engine0_reachable|]. split; [reflexivity|].
  apply (proj2 (proj2 (proj2 (proj2
           (@stroke_points_append_only PrimFloat.float))))
           engine0 (start_cmd "a" 1%float 2%float)
           [update_cmd "a" 3%float 4%float; update_cmd "a" 5%float 6%float]
           engine0_reachable eq_refl).
  repeat constructor.
Defined.

Lemma silent_noops_witness :
  c_type (update_cmd "missing-id" 5%float 5%float) = "updateStroke" /\
  strokeIndex_ (after session) !! "missing-id" = None /\
  execute (after session) (update_cmd "missing-id" 5%float 5%float)
    = after session /\
  execute (after session) (other_cmd "deleteShape") = after session /\
  pointerEvent (after session) (other_ev "pointerDown" 3)
    = Some (after session).
Proof.
  destruct (silent_noops (after session)) as (Hid & Hkind & Hev & _).
  split; [reflexivity|]. split; [vm_compute; reflexivity|].
  split; [apply Hid; [left; reflexivity|vm_compute; reflexivity]|].
  split; [apply Hkind; discriminate|].
  apply Hev. discriminate.
Defined.

Lemma rectangle_numbering_witness :
  run (createEngine 800 600) session = Some (after session) /\
  commands_of "createRectangle" session !! 1
    = Some (rect_cmd 5%float 5%float) /\
  rectangles_ (after session) !! 1 = Some
    {| r_id := "rect-2"; r_name := "Rectangle 2";
       r_x := 5%float; r_y := 5%float;
       r_width := 10%float; r_height := 20%float; r_color := "#000000" |}.
Proof.
  assert (H : run (createEngine 800 600) session = Some (after session))
    by (vm_compute; reflexivity).
  split; [exact H|]. split; [reflexivity|].
  exact (proj2 (proj1 (proj2 (@rectangle_numbering PrimFloat.float))
                  800%Z 600%Z session (after session) H)
           1 (rect_cmd 5%float 5%float) eq_refl).
Defined.

(** A stroke created before a rectangle still comes after it in the shapes
    of the snapshot. *)
Example tick_rectangle_first :
  tick (after [CallExecute (start_cmd "a" 1%float 2%float);
               CallExecute (rect_cmd 0%float 0%float)]) =
    Obj [("document",
          Obj [("id", Str "doc-native");
               ("name", Str "Composition native");
               ("shapes",
                Arr [Obj [("id", Str "rect-1"); ("name", Str "Rectangle 1");
                          ("kind", Str "rectangle");
                          ("x", Num 0%float); ("y", Num 0%float);
                          ("width", Num 10%float); ("height", Num 20%float);
                          ("color", Str "#000000")];
                     Obj [("id", Str "a"); ("name", Str "Trace 1");
                          ("kind", Str "stroke"); ("color", Str "red");
                          ("size", Num 3%float);
                          ("points",
                           Arr [Obj [("x", Num 1%float);
                                     ("y", Num 2%float)]])]])]);
         ("presences", Arr [])].
Proof. vm_compute. reflexivity. Qed.

Lemma presence_semantics_witness :
  Forall (fun event => Int32.in_range (ev_pointerId event) /\
                       ev_pointerId event <> Int32.INT_MIN)
    (pointer_moves session) /\
  exists e',
    run (createEngine 800 600) session = Some e' /\
    presences_ e' !! 3%Z = Some
      {| p_id := "3"; p_color := "#facc15";
         p_x := 11%float; p_y := 21%float |} /\
    presences_ e' !! (-7)%Z = Some
      {| p_id := "-7"; p_color := "#f97316";
         p_x := 1%float; p_y := 1%float |} /\
    presences_ e' !! 4%Z = None /\
    NoDup (p_id <$> (map_to_list (presences_ e')).*2).
Proof.
  assert (Hint : Forall (fun event => Int32.in_range (ev_pointerId event) /\
                                      ev_pointerId event <> Int32.INT_MIN)
                   (pointer_moves session)).
  { repeat constructor; vm_compute; discriminate. }
  split; [exact Hint|].
  destruct (proj1 (proj2 (proj2 (@presence_semantics PrimFloat.float)))
              800%Z 600%Z session Hint) as (e' & Hrun & Hmap & Hnodup).
  exists e'. split; [exact Hrun|].
  split; [|split; [|split; [exact (Hmap 4%Z)|exact Hnodup]]].
  - destruct (Hmap 3%Z) as (color & Hc & Hp).
    injection Hc as <-. exact Hp.
  - destruct (Hmap (-7)%Z) as (color & Hc & Hp).
    injection Hc as <-. exact Hp.
Defined.

(** A [resize] changes the engine and not its snapshot, and so does the
    [finishStroke] of an active stroke. *)
Lemma tick_misses_resize :
  resize engine0 1024 768 <> engine0 /\
  tick (resize engine0 1024 768) = tick engine0 /\
  execute (after [CallExecute (start_cmd "a" 1%float 2%float)])
    (finish_cmd "a")
    <> after [CallExecute (start_cmd "a" 1%float 2%float)] /\
  tick (execute (after [CallExecute (start_cmd "a" 1%float 2%float)])
          (finish_cmd "a"))
    = tick (after [CallExecute (start_cmd "a" 1%float 2%float)]).
Proof.
  split; [|split; [vm_compute; reflexivity|split; [|vm_compute; reflexivity]]].
  - intros H. apply (f_equal width_) in H. vm_compute in H. discriminate.
  - intros H. apply (f_equal (fun e => strokeIndex_ e !! "a")) in H.
    vm_compute in H. discriminate.
Qed.

Lemma tick_read_only_witness :
  reachable (after session) /\
  call (after session) CallTick
    = Some (after session, Some (tick (after session))) /\
  (tick (after session) = tick (after session) ->
   presences_ (after session) = presences_ (after session)).
Proof.
  assert (Hreach : reachable (after session))
    by (apply after_reachable; vm_compute; reflexivity).
  split; [exact Hreach|].
  split; [exact (proj1 (@tick_read_only PrimFloat.float) (after session))|].
  exact (proj2 (proj2 (proj2 (proj2 (@tick_read_only PrimFloat.float))))
           (after session) (after session) Hreach Hreach).
Defined.

Lemma active_index_consistent_witness :
  reachable (after session) /\
  strokeIndex_ (after session) !! "a" = Some 0 /\
  0 < length (strokes_ (after session)) /\
  findStroke (after session) "a" = Some 0.
Proof.
  assert (Hreach : reachable (after session))
    by (apply after_reachable; vm_compute; reflexivity).
  assert (Hk : strokeIndex_ (after session) !! "a" = Some 0)
    by (vm_compute; reflexivity).
  destruct (active_index_consistent (after session) "a" 0 Hreach Hk)
    as (Hlt & _ & Hfind & _).
  split; [exact Hreach|]. split; [exact Hk|]. split; [exact Hlt|exact Hfind].
Defined.

(** * The further properties on concrete sessions *)

Lemma stroke_numbering_witness :
  run (createEngine 800 600) restart = Some (after restart) /\
  commands_of "startStroke" restart !! 1
    = Some (start_cmd "a" 7%float 8%float) /\
  exists s,
    strokes_ (after restart) !! 1 = Some s /\
    s_id s = "a" /\ s_name s = "Trace 2".
Proof.
  assert (H : run (createEngine 800 600) restart = Some (after restart))
    by (vm_compute; reflexivity).
  split; [exact H|]. split; [reflexivity|].
  destruct (proj1 (proj2 (stroke_numbering 800 600 restart (after restart) H))
              1 (start_cmd "a" 7%float 8%float) eq_refl)
    as (s & Hs & Hid & Hname & _).
  exists s. split; [exact Hs|]. split; [exact Hid|exact Hname].
Defined.

Lemma finished_stroke_frozen_witness :
  reachable (after (take 2 restart)) /\
  strokeIndex_ (after (take 2 restart)) !! c_id (finish_cmd "a") = Some 0 /\
  run (execute (after (take 2 restart)) (finish_cmd "a")) (drop 3 restart)
    = Some (after restart) /\
  strokes_ (after restart) !! 0 = strokes_ (after (take 2 restart)) !! 0.
Proof.
  assert (Hreach : reachable (after (take 2 restart)))
    by (apply after_reachable; vm_compute; reflexivity).
  assert (Hk : strokeIndex_ (after (take 2 restart))
                 !! c_id (finish_cmd "a") = Some 0)
    by (vm_compute; reflexivity).
  assert (Hrun : run (execute (after (take 2 restart)) (finish_cmd "a"))
                   (drop 3 restart) = Some (after restart))
    by (vm_compute; reflexivity).
  split; [exact Hreach|]. split; [exact Hk|]. split; [exact Hrun|].
  exact (proj1 (finished_stroke_frozen _ (finish_cmd "a") 0 _ _
                  Hreach Hk (or_introl eq_refl) Hrun)).
Defined.

Lemma index_designates_latest_witness :
  reachable (after restart) /\
  strokeIndex_ (after restart) !! "a" = Some 1 /\
  findStroke (after restart) "a" = Some 1 /\
  s_id <$> strokes_ (after restart) = ["a"; "a"].
Proof.
  assert (Hreach : reachable (after restart))
    by (apply after_reachable; vm_compute; reflexivity).
  assert (Hk : strokeIndex_ (after restart) !! "a" = Some 1)
    by (vm_compute; reflexivity).
  split; [exact Hreach|]. split; [exact Hk|].
  split; [|vm_compute; reflexivity].
  exact (proj1 (index_designates_latest (after restart) "a" 1 Hreach Hk)).
Defined.

Lemma findStroke_after_execute_witness :
  reachable (after session) /\
  findStroke (execute (after session) (start_cmd "b" 0%float 0%float)) "b"
    = Some 1 /\
  findStroke (execute (after session) (finish_cmd "a")) "a" = None /\
  findStroke (execute (after session) (start_cmd "b" 0%float 0%float)) "a"
    = findStroke (after session) "a".
Proof.
  assert (Hreach : reachable (after session))
    by (apply after_reachable; vm_compute; reflexivity).
  destruct (findStroke_after_execute (after session)) as (Hs & Hf & Ho).
  split; [exact Hreach|].
  split; [exact (Hs (start_cmd "b" 0%float 0%float) eq_refl)|].
  split; [exact (Hf (finish_cmd "a") eq_refl)|].
  apply (Ho Hreach). intros [Hid _]. discriminate Hid.
Defined.

Lemma dimensions_last_resize_witness :
  run (createEngine 800 600) session = Some (after session) /\
  width_ (after session) = 0%Z /\ height_ (after session) = 100%Z.
Proof.
  assert (H : run (createEngine 800 600) session = Some (after session))
    by (vm_compute; reflexivity).
  destruct (dimensions_last_resize 800 600 session (after session) H)
    as (Hw & Hh & _).
  split; [exact H|]. split; [exact Hw|exact Hh].
Defined.

Lemma pointerEvent_frame_presences_witness :
  pointerEvent (after session) (move_ev 5 0%float 0%float)
    = Some (default engine0
              (pointerEvent (after session) (move_ev 5 0%float 0%float))) /\
  strokes_ (default engine0
              (pointerEvent (after session) (move_ev 5 0%float 0%float)))
    = strokes_ (after session) /\
  presences_ (default engine0
                (pointerEvent (after session) (move_ev 5 0%float 0%float)))
    !! 3%Z = presences_ (after session) !! 3%Z.
Proof.
  assert (H : pointerEvent (after session) (move_ev 5 0%float 0%float)
              = Some (default engine0
                        (pointerEvent (after session)
                           (move_ev 5 0%float 0%float))))
    by (vm_compute; reflexivity).
  destruct (pointerEvent_frame_presences _ _ _ H)
    as (_ & _ & _ & Hs & _ & Hother & _).
  split; [exact H|]. split; [exact Hs|].
  apply Hother. discriminate.
Defined.

Lemma nothing_is_removed_witness :
  run (after (take 2 restart)) (drop 2 restart) = Some (after restart) /\
  rectangles_ (after (take 2 restart)) `prefix_of` rectangles_ (after restart).
Proof.
  assert (H : run (after (take 2 restart)) (drop 2 restart)
              = Some (after restart))
    by (vm_compute; reflexivity).
  split; [exact H|].
  exact (proj1 (nothing_is_removed _ _ _ H)).
Defined.

Lemma run_succeeds_iff_witness :
  Forall (fun event => Int32.in_range (ev_pointerId event))
    (pointer_moves session) /\
  (is_Some (run (createEngine 800 600) session) <->
   Int32.INT_MIN ∉ ev_pointerId <$> pointer_moves session).
Proof.
  assert (H : Forall (fun event => Int32.in_range (ev_pointerId event))
                (pointer_moves session)).
  { repeat constructor; vm_compute; discriminate. }
  split; [exact H|].
  exact (proj2 (@run_succeeds_iff PrimFloat.float 800 600 session) H).
Defined.

Lemma presences_domain_witness :
  run (createEngine 800 600) session = Some (after session) /\
  length (map_to_list (presences_ (after session))) = 2.
Proof.
  assert (H : run (createEngine 800 600) session = Some (after session))
    by (vm_compute; reflexivity).
  split; [exact H|].
  rewrite (proj2 (presences_domain 800 600 session (after session) H)).
  reflexivity.
Defined.

Lemma colorForPointer_same_color_witness :
  Int32.in_range 1 /\ 1%Z <> Int32.INT_MIN /\
  Int32.in_range (-7) /\ (-7)%Z <> Int32.INT_MIN /\
  colorForPointer 1 = colorForPointer (-7) /\
  colorForPointer (-1) = colorForPointer 1 /\
  colorForPointer (1 + 6) = colorForPointer 1.
Proof.
  assert (H1 : Int32.in_range 1) by (split; discriminate).
  assert (H2 : Int32.in_range (-7)) by (split; discriminate).
  assert (H7 : Int32.in_range (1 + 6)) by (split; discriminate).
  assert (N1 : 1%Z <> Int32.INT_MIN) by discriminate.
  assert (N2 : (-7)%Z <> Int32.INT_MIN) by discriminate.
  destruct (colorForPointer_same_color 1 (-7) H1 N1 H2 N2)
    as (_ & Hiff & Hneg & Hplus).
  split; [exact H1|]. split; [exact N1|]. split; [exact H2|].
  split; [exact N2|].
  split; [apply (proj2 Hiff); reflexivity|].
  split; [exact Hneg|].
  apply Hplus; [discriminate|exact H7].
Defined.

Lemma active_iff_last_start_witness :
  run (createEngine 800 600) (take 4 restart) = Some (after (take 4 restart)) /\
  ~ is_Some (strokeIndex_ (after (take 4 restart)) !! "a").
Proof.
  assert (H : run (createEngine 800 600) (take 4 restart)
              = Some (after (take 4 restart)))
    by (vm_compute; reflexivity).
  split; [exact H|].
  intros Hact.
  apply (proj1 (active_iff_last_start 800 600 (take 4 restart)
                  (after (take 4 restart)) "a" H)) in Hact
    as (command & Hlast & Htype).
  vm_compute in Hlast. injection Hlast as <-. discriminate Htype.
Defined.
